(** * The CSS selector builder of [src/objects-tasks.js]

    A shallow embedding of [class BaseElement] and of the object
    [cssSelectorBuilder], followed by the properties of the builder.

    The embedding has two layers.
    - The value layer reads an object as the contents of its own data
      property [selectors]; every method is a function from the receiver
      [this] to a completion (a returned value or a thrown [Error]).
    - The store layer ([Module Store]) keeps arrays and objects in a heap
      of references, so that the allocation done by the spread
      [[...this.selectors, f]], by [new BaseElement] and the writes done by
      [Object.assign] are explicit.  It is the layer in which the absence of
      mutation is a theorem and not a property of the notation. *)

From stdpp Require Import base option list strings numbers sorting gmap fin_maps.

Local Open Scope Z_scope.

(** ** Completions: [return v] and [throw new Error(message)] *)

Inductive completion (A : Type) : Type :=
| Normal (a : A)
| Throw (message : string).
Arguments Normal {A} a.
Arguments Throw {A} message.

#[global] Instance completion_ret : MRet completion := @Normal.
#[global] Instance completion_bind : MBind completion :=
  λ A B f c, match c with Normal a => f a | Throw e => Throw e end.

(** The two messages of the source (lines 459-461 and 542-544). *)
Definition order_message : string :=
  "Selector parts should be arranged in the following order: element, id, class, attribute, pseudo-class, pseudo-element".

Definition unique_message : string :=
  "Element, id and pseudo-element should not occur more then one time inside the selector".

(** ** Data *)

(** The object literal [{ type, value, order }] of [privatMethod]. *)
Record fragment : Type := Fragment {
  type : string;
  value : string;
  order : Z;
}.

#[global] Instance fragment_eq_dec : EqDecision fragment.
Proof. solve_decision. Defined.

(** An object of the builder family: the root [cssSelectorBuilder] and every
    [BaseElement].  Its only data property is [selectors]; the function-valued
    properties are the same for all of them ([Object.assign] copies them from
    the receiver to each new instance and nothing reassigns them), so method
    dispatch is static. *)
Record object : Type := Object {
  selectors : list fragment;
}.

(** [Object.assign(this, obj, src)] on the data property: [src] is assigned
    last and defines [selectors]. *)
Definition Object_assign (this obj src : object) : object :=
  {| selectors := selectors src |}.

(** JavaScript numbers as far as [validateMetod] needs them:
    [undefined + 1] is [NaN], [NaN + 1] is [NaN], [NaN > 0] is false. *)
Inductive number : Type :=
| NaN
| Num (n : Z).

Definition plus_one (property : option number) : number :=
  match property with
  | Some (Num n) => Num (n + 1)
  | Some NaN | None => NaN
  end.

Definition greater_than_zero (property : option number) : bool :=
  match property with
  | Some (Num n) => bool_decide (0 < n)
  | Some NaN | None => false
  end.

(** ** class BaseElement *)

Module BaseElement.

(** The [forEach] of [checkOrder]; [prevElOrder] is the local variable. *)
Fixpoint checkOrder_forEach (prevElOrder : Z) (els : list fragment)
  : completion unit :=
  match els with
  | [] => Normal tt
  | el :: rest =>
      if bool_decide (order el < prevElOrder)
      then Throw order_message
      else checkOrder_forEach (order el) rest
  end.

Definition checkOrder (this : object) : completion unit :=
  let prevElOrder := 0 in
  checkOrder_forEach prevElOrder (selectors this).

(** [new BaseElement(obj, selectors)]. *)
Definition constructor (obj src : object) : completion object :=
  let this := Object_assign (Object []) obj src in
  checkOrder this ;; mret this.

End BaseElement.

(** ** The six fluent methods

    The bodies of [element], [id], [class], [attr], [pseudoClass] and
    [pseudoElement] (lines 479-532) only call [this.validateMetod] and
    [this.privatMethod].  They are written once, over the monad [M] of the
    layer and its representation [obj] of an object, and instantiated by both
    layers. *)

(** Names for the six methods, to speak of sequences of calls. *)
Inductive method : Type :=
| m_element | m_id | m_class | m_attr | m_pseudoClass | m_pseudoElement.

#[global] Instance method_eq_dec : EqDecision method.
Proof. solve_decision. Defined.

Module Facade.
Section methods.
Context {M : Type → Type} `{!MBind M, !MRet M} {obj : Type}.
Variable validateMetod : string → obj → M unit.
Variable privatMethod : string → Z → string → string → string → obj → M obj.

Definition element (value : string) (this : obj) : M obj :=
  let type := "element" in
  let prefix := EmptyString in
  let order := 1 in
  validateMetod type this ;;
  privatMethod prefix order type value EmptyString this.

Definition id (value : string) (this : obj) : M obj :=
  let type := "id" in
  let prefix := "#" in
  let order := 2 in
  validateMetod type this ;;
  privatMethod prefix order type value EmptyString this.

Definition class (value : string) (this : obj) : M obj :=
  let type := "class" in
  let prefix := "." in
  let order := 3 in
  validateMetod type this ;;
  privatMethod prefix order type value EmptyString this.

Definition attr (value : string) (this : obj) : M obj :=
  let type := "attr" in
  let prefix := "[" in
  let prefixEnd := "]" in
  let order := 4 in
  validateMetod type this ;;
  privatMethod prefix order type value prefixEnd this.

Definition pseudoClass (value : string) (this : obj) : M obj :=
  let type := "pseudoClass" in
  let prefix := ":" in
  let order := 5 in
  validateMetod type this ;;
  privatMethod prefix order type value EmptyString this.

Definition pseudoElement (value : string) (this : obj) : M obj :=
  let type := "pseudoElement" in
  let prefix := "::" in
  let order := 6 in
  validateMetod type this ;;
  privatMethod prefix order type value EmptyString this.

(** [this.m(value)] for a named method [m]. *)
Definition call (m : method) : string → obj → M obj :=
  match m with
  | m_element => element
  | m_id => id
  | m_class => class
  | m_attr => attr
  | m_pseudoClass => pseudoClass
  | m_pseudoElement => pseudoElement
  end.

(** [this.m1(v1).m2(v2)...]: an exception ends the chain. *)
Fixpoint chain (calls : list (method * string)) (this : obj) : M obj :=
  match calls with
  | [] => mret this
  | (m, value) :: rest => this' ← call m value this; chain rest this'
  end.
End methods.
End Facade.

(** Anything with a [stringify()] method: the operands of [combine]. *)
Class Stringifiable (A : Type) : Type := stringify_of : A → string.

(** The object returned by [combine]: its one property is the closure
    [stringify() { ... }]. *)
Record combined : Type := Combined {
  combined_stringify : unit → string;
}.

(** ** const cssSelectorBuilder *)

Module cssSelectorBuilder.

(** The object literal itself: [selectors: []]. *)
Definition self : object := {| selectors := [] |}.

(** [prefixEnd] has the default [''] in the source; the callers that omit
    it pass [EmptyString] here. *)
Definition privatMethod (prefix : string) (order : Z) (type value : string)
    (prefixEnd : string) (this : object) : completion object :=
  let newSelectors :=
    selectors this ++ [ {| type := type;
                           value := prefix +:+ value +:+ prefixEnd;
                           order := order |} ] in
  BaseElement.constructor this {| selectors := newSelectors |}.

Definition validateArr : list string := ["element"; "id"; "pseudoElement"].

(** The body of the [forEach] of [validateMetod]:
    [validateObj[el.type] += 1]. *)
Definition validate_step (validateObj : gmap string number) (el : fragment)
  : gmap string number :=
  <[ type el := plus_one (validateObj !! type el) ]> validateObj.

Definition validateMetod (selectorType : string) (this : object)
  : completion unit :=
  let validateObj0 : gmap string number :=
    {[ "element" := Num 0; "id" := Num 0; "pseudoElement" := Num 0 ]} in
  let validateObj := foldl validate_step validateObj0 (selectors this) in
  if bool_decide (selectorType ∈ validateArr)
     && greater_than_zero (validateObj !! selectorType)
  then Throw unique_message
  else Normal tt.

Definition element := Facade.element validateMetod privatMethod.
Definition id := Facade.id validateMetod privatMethod.
Definition class := Facade.class validateMetod privatMethod.
Definition attr := Facade.attr validateMetod privatMethod.
Definition pseudoClass := Facade.pseudoClass validateMetod privatMethod.
Definition pseudoElement := Facade.pseudoElement validateMetod privatMethod.
Definition call := Facade.call validateMetod privatMethod.
Definition chain := Facade.chain validateMetod privatMethod.

(** [this.selectors.reduce((acc, el) => acc + el.value, '')]. *)
Definition stringify (this : object) : string :=
  foldl (λ acc el, acc +:+ value el) EmptyString (selectors this).

(** [combine] does not use [this]. *)
Definition combine {A B : Type} `{!Stringifiable A, !Stringifiable B}
    (selector1 : A) (combinator : string) (selector2 : B) : combined :=
  {| combined_stringify := λ _,
       stringify_of selector1 +:+ " " +:+ combinator +:+ " "
         +:+ stringify_of selector2 |}.

End cssSelectorBuilder.

#[global] Instance object_stringifiable : Stringifiable object :=
  cssSelectorBuilder.stringify.
#[global] Instance combined_stringifiable : Stringifiable combined :=
  λ c, combined_stringify c tt.

(** ** The store layer: arrays and objects behind references *)

Module Store.

Definition loc : Type := positive.

(** A heap cell: an array of fragments, or an object of the builder family
    with its property [selectors], a reference to an array ([None] while
    the property is not yet defined, as in a freshly allocated
    [BaseElement] before [Object.assign]). *)
Inductive cell : Type :=
| Arr (items : list fragment)
| Obj (selectors : option loc).

Abbreviation heap := (gmap loc cell).

(** Computations: a heap in, a completion and a heap out.  A thrown
    exception keeps the heap as it is at the [throw]. *)
Definition M (A : Type) : Type := heap → completion A * heap.

#[global] Instance M_ret : MRet M := λ A a h, (Normal a, h).
#[global] Instance M_bind : MBind M := λ A B f c h,
  match c h with
  | (Normal a, h') => f a h'
  | (Throw e, h') => (Throw e, h')
  end.

(** A completion of the value layer, run without touching the heap. *)
Definition lift {A : Type} (c : completion A) : M A := λ h, (c, h).

(** Reading a property of [undefined], spreading or iterating it. *)
Definition type_error : string := "TypeError".

Definition alloc (c : cell) : M loc := λ h,
  let l := fresh (dom h) in (Normal l, <[l := c]> h).

(** [o.selectors] as an array reference. *)
Definition get_selectors (o : loc) : M loc := λ h,
  match h !! o with
  | Some (Obj (Some a)) => (Normal a, h)
  | _ => (Throw type_error, h)
  end.

(** [o.selectors = a]. *)
Definition set_selectors (o a : loc) : M unit := λ h,
  match h !! o with
  | Some (Obj _) => (Normal tt, <[o := Obj (Some a)]> h)
  | _ => (Throw type_error, h)
  end.

Definition read_array (a : loc) : M (list fragment) := λ h,
  match h !! a with
  | Some (Arr items) => (Normal items, h)
  | _ => (Throw type_error, h)
  end.

(** What the read-only code sees of [this]: the items of
    [this.selectors]. *)
Definition snapshot (this : loc) : M object :=
  a ← get_selectors this; items ← read_array a; mret (Object items).

(** [Object.assign(this, obj, src)]: [obj.selectors], then
    [src.selectors], are written to [this.selectors]. *)
Definition Object_assign (this obj src : loc) : M unit :=
  a ← get_selectors obj; set_selectors this a ;;
  b ← get_selectors src; set_selectors this b.

(** [checkOrder] only reads [this.selectors]. *)
Definition checkOrder (this : loc) : M unit :=
  o ← snapshot this; lift (BaseElement.checkOrder o).

(** [new BaseElement(obj, src)]: a new object, filled by [Object.assign]
    and checked. *)
Definition constructor (obj src : loc) : M loc :=
  this ← alloc (Obj None);
  Object_assign this obj src ;;
  checkOrder this ;;
  mret this.

(** [privatMethod]: the spread allocates a new array, the object literal
    [{ selectors: newSelectors }] a new object. *)
Definition privatMethod (prefix : string) (order : Z) (type value : string)
    (prefixEnd : string) (this : loc) : M loc :=
  a ← get_selectors this;
  items ← read_array a;
  newSelectors ← alloc (Arr (items ++ [ {| type := type;
                                           value := prefix +:+ value +:+ prefixEnd;
                                           order := order |} ]));
  src ← alloc (Obj (Some newSelectors));
  constructor this src.

(** [validateMetod] only reads [this.selectors]; [validateArr] and
    [validateObj] are local to the call. *)
Definition validateMetod (selectorType : string) (this : loc) : M unit :=
  o ← snapshot this; lift (cssSelectorBuilder.validateMetod selectorType o).

Definition element := Facade.element validateMetod privatMethod.
Definition id := Facade.id validateMetod privatMethod.
Definition class := Facade.class validateMetod privatMethod.
Definition attr := Facade.attr validateMetod privatMethod.
Definition pseudoClass := Facade.pseudoClass validateMetod privatMethod.
Definition pseudoElement := Facade.pseudoElement validateMetod privatMethod.
Definition call := Facade.call validateMetod privatMethod.
Definition chain := Facade.chain validateMetod privatMethod.

Definition stringify (this : loc) : M string :=
  o ← snapshot this; mret (cssSelectorBuilder.stringify o).

(** The heap once the module is loaded: the array literal [[]] and the
    object [cssSelectorBuilder] whose [selectors] refers to it. *)
Definition self_selectors : loc := 1%positive.
Definition self : loc := 2%positive.
Definition initial : heap :=
  {[ self_selectors := Arr []; self := Obj (Some self_selectors) ]}.

(** The items of [o.selectors] in heap [h], when [o] is an object whose
    [selectors] is an array. *)
Definition contents (h : heap) (o : loc) : option (list fragment) :=
  match h !! o with
  | Some (Obj (Some a)) =>
      match h !! a with
      | Some (Arr items) => Some items
      | _ => None
      end
  | _ => None
  end.

(** The outcome of a computation returning an object, up to the choice of
    references: the items of the returned object, or the error. *)
Definition observe (r : completion loc * heap)
  : completion (option (list fragment)) :=
  match r with
  | (Normal o, h) => Normal (contents h o)
  | (Throw e, _) => Throw e
  end.

End Store.

(** ** Vocabulary of the specification *)

(** The [type] constant of each method (the specification's "kind"). *)
Definition type_of (m : method) : string :=
  match m with
  | m_element => "element"
  | m_id => "id"
  | m_class => "class"
  | m_attr => "attr"
  | m_pseudoClass => "pseudoClass"
  | m_pseudoElement => "pseudoElement"
  end.

(** The rank of each kind, as the specification's data model lists it. *)
Definition spec_rank (m : method) : Z :=
  match m with
  | m_element => 1
  | m_id => 2
  | m_class => 3
  | m_attr => 4
  | m_pseudoClass => 5
  | m_pseudoElement => 6
  end.

(** The formatted text of a fragment, as the specification words it. *)
Definition spec_text (m : method) (value : string) : string :=
  match m with
  | m_element => value
  | m_id => "#" +:+ value
  | m_class => "." +:+ value
  | m_attr => "[" +:+ value +:+ "]"
  | m_pseudoClass => ":" +:+ value
  | m_pseudoElement => "::" +:+ value
  end.

Definition fragment_of (m : method) (value : string) : fragment :=
  {| type := type_of m; value := spec_text m value; order := spec_rank m |}.

(** Element, Id and PseudoElement: the kinds that may occur only once. *)
Definition singleton (m : method) : bool :=
  match m with
  | m_element | m_id | m_pseudoElement => true
  | m_class | m_attr | m_pseudoClass => false
  end.

(** How many fragments of [els] have the type [ty]. *)
Definition occurrences (ty : string) (els : list fragment) : nat :=
  length (filter (λ el, type el = ty) els).

(** A fragment of the kind of [m] is already in [this.selectors]. *)
Definition has_kind (m : method) (this : object) : Prop :=
  type_of m ∈ type <$> selectors this.

#[global] Instance has_kind_dec (m : method) (this : object) :
  Decision (has_kind m this).
Proof. unfold has_kind. apply _. Defined.

(** The fragments a sequence of calls appends. *)
Definition fragments (calls : list (method * string)) : list fragment :=
  uncurry fragment_of <$> calls.

(** Concatenation with no separator. *)
Definition concat_strings (l : list string) : string :=
  foldr String.append EmptyString l.

(** The invariant of a selector: non-decreasing ranks, singleton kinds at
    most once. *)
Definition nondecreasing (els : list fragment) : Prop :=
  Sorted Z.le (order <$> els).

Definition at_most_once (els : list fragment) : Prop :=
  ∀ m, singleton m = true → (occurrences (type_of m) els ≤ 1)%nat.

Definition invariant (this : object) : Prop :=
  nondecreasing (selectors this) ∧ at_most_once (selectors this).

(** The objects a program can build: the root and what successful calls
    return. *)
Inductive constructed : object → Prop :=
| constructed_self : constructed cssSelectorBuilder.self
| constructed_call m value this this' :
    constructed this →
    cssSelectorBuilder.call m value this = Normal this' →
    constructed this'.

(** The heaps a program can reach: any calls, on any receivers. *)
Inductive reachable : Store.heap → Prop :=
| reachable_initial : reachable Store.initial
| reachable_call m value this h :
    reachable h →
    reachable (Store.call m value this h).2.

(** The double-quote character, code 34. *)
Definition dquote : string := String (Ascii.ascii_of_nat 34) EmptyString.

(** ** function sellTickets *)

(** The object [change] of [sellTickets]. *)
Record Change : Type := {
  cach25 : Z;
  cach50 : Z;
}.

(** A number in a condition: true unless it is zero. *)
Definition truthy (n : Z) : bool := negb (bool_decide (n = 0)).

(** The callback of [queue.every]: what it returns, and [change] after
    it. *)
Definition sell (change : Change) (payment : Z) : bool * Change :=
  if bool_decide (payment = 25) then
    (true, {| cach25 := cach25 change + 1; cach50 := cach50 change |})
  else if bool_decide (payment = 50) then
    if truthy (cach25 change) then
      (true, {| cach25 := cach25 change - 1; cach50 := cach50 change + 1 |})
    else (false, change)
  else if bool_decide (payment = 100) then
    if truthy (cach50 change) && truthy (cach25 change) then
      (true, {| cach25 := cach25 change - 1; cach50 := cach50 change - 1 |})
    else if bool_decide (2 < cach25 change) then
      (true, {| cach25 := cach25 change - 3; cach50 := cach50 change |})
    else (false, change)
  else (true, change).

(** [queue.every(callback)]: stops at the first [false]. *)
Fixpoint sell_every (change : Change) (queue : list Z) : bool * Change :=
  match queue with
  | [] => (true, change)
  | payment :: rest =>
      let '(sold, change') := sell change payment in
      if sold then sell_every change' rest else (false, change')
  end.

Definition sellTickets (queue : list Z) : bool :=
  (sell_every {| cach25 := 0; cach50 := 0 |} queue).1.

(** The task of the documentation comment: a ticket costs 25, a customer
    pays with a bill of 25, 50 or 100 and is given the change out of the
    bills of 25 and 50 taken so far ([n25] and [n50] of them), in any way
    that works. *)
Inductive can_sell : Z → Z → list Z → Prop :=
| can_sell_nil n25 n50 : can_sell n25 n50 []
| can_sell_25 n25 n50 queue :
    can_sell (n25 + 1) n50 queue → can_sell n25 n50 (25 :: queue)
| can_sell_50 n25 n50 queue :
    0 < n25 → can_sell (n25 - 1) (n50 + 1) queue →
    can_sell n25 n50 (50 :: queue)
| can_sell_100_50_25 n25 n50 queue :
    0 < n25 → 0 < n50 → can_sell (n25 - 1) (n50 - 1) queue →
    can_sell n25 n50 (100 :: queue)
| can_sell_100_25_25_25 n25 n50 queue :
    3 ≤ n25 → can_sell (n25 - 3) n50 queue →
    can_sell n25 n50 (100 :: queue).

(** The bills of the documentation comment. *)
Definition bill (payment : Z) : Prop := payment ∈ [25; 50; 100].

#[global] Instance bill_dec (payment : Z) : Decision (bill payment).
Proof. unfold bill. apply _. Defined.

(** ** function group *)

(** A [Map] is the list of its entries in insertion order; the value of an
    entry is the array kept under the key.  Keys are compared by the
    equality of [K].  The callbacks [keySelector] and [valueSelector] are
    functions: calling one twice on an item gives the same result. *)
Section group.
Context {A K V : Type} `{!EqDecision K}.

Definition Map_has (map : list (K * list V)) (key : K) : bool :=
  bool_decide (key ∈ map.*1).

Fixpoint Map_get (map : list (K * list V)) (key : K) : option (list V) :=
  match map with
  | [] => None
  | (k, value) :: rest =>
      if decide (k = key) then Some value else Map_get rest key
  end.

(** [map.set(key, value)]: the value of a present key is replaced where it
    stands, a new key goes to the end. *)
Fixpoint Map_set (map : list (K * list V)) (key : K) (value : list V)
  : list (K * list V) :=
  match map with
  | [] => [(key, value)]
  | (k, old) :: rest =>
      if decide (k = key) then (k, value) :: rest
      else (k, old) :: Map_set rest key value
  end.

(** [map.get(key).push(x)]: the array is the one held by the map, so the
    entry changes; on a key that is not there, [get] gives [undefined] and
    the call of [push] throws. *)
Definition Map_get_push (map : list (K * list V)) (key : K) (x : V)
  : completion (list (K * list V)) :=
  match Map_get map key with
  | Some array => Normal (Map_set map key (array ++ [x]))
  | None => Throw Store.type_error
  end.

(** The callback of [array.reduce]. *)
Definition group_step (keySelector : A → K) (valueSelector : A → V)
    (map : list (K * list V)) (item : A) : completion (list (K * list V)) :=
  if Map_has map (keySelector item)
  then Map_get_push map (keySelector item) (valueSelector item)
  else
    let map := Map_set map (keySelector item) [] in
    Map_get_push map (keySelector item) (valueSelector item).

Definition group (array : list A) (keySelector : A → K)
    (valueSelector : A → V) : completion (list (K * list V)) :=
  foldl (λ acc item, map ← acc; group_step keySelector valueSelector map item)
    (Normal []) array.

(** The distinct elements of a list, in the order in which they first
    occur. *)
Fixpoint first_seen (l : list K) : list K :=
  match l with
  | [] => []
  | k :: rest => k :: filter (λ k', k' ≠ k) (first_seen rest)
  end.

End group.

(** ** Plain objects: compareObjects, isEmptyObject, removeProperties,
       mergeObjects *)

(** A plain object is the finite map of its own enumerable properties with
    string keys.  The order of [Object.keys] and [Object.entries] is not
    kept: the functions below visit every key once and do to a key what
    does not depend on the keys visited before.  What an object inherits
    from [Object.prototype] is not part of this file, and is taken as it
    comes: [prototype] gives the value read from an inherited property,
    [accessor] tells the inherited properties that are accessors
    ([__proto__] in the engines), on which an assignment runs the setter and
    creates no own property.  Values are compared by their equality, as
    [===] does on every value but the number NaN. *)
Section objects.
Context {value : Type} `{!EqDecision value}.
Variable undefined : value.
Variable prototype : gmap string value.
Variable accessor : string → bool.

Definition Object_keys (obj : gmap string value) : list string :=
  (map_to_list obj).*1.

Definition Object_entries (obj : gmap string value) : list (string * value) :=
  map_to_list obj.

(** [obj[key]] *)
Definition get_property (obj : gmap string value) (key : string) : value :=
  match obj !! key with
  | Some v => v
  | None => default undefined (prototype !! key)
  end.

(** [key in obj] *)
Definition in_object (key : string) (obj : gmap string value) : bool :=
  bool_decide (is_Some (obj !! key) ∨ is_Some (prototype !! key)).

(** [obj[key] = v], for a primitive [v]. *)
Definition set_property (obj : gmap string value) (key : string) (v : value)
  : gmap string value :=
  if bool_decide (obj !! key = None ∧ is_Some (prototype !! key))
     && accessor key
  then obj
  else <[key := v]> obj.

Definition compareObjects (obj1 obj2 : gmap string value) : bool :=
  let keys1 := Object_keys obj1 in
  let keys2 := Object_keys obj2 in
  if negb (bool_decide (length keys1 = length keys2)) then false
  else forallb
         (λ key, bool_decide (get_property obj1 key = get_property obj2 key))
         keys1.

Definition isEmptyObject (obj : gmap string value) : bool :=
  bool_decide (length (Object_keys obj) = 0%nat).

(** [keys] is an array of keys, or one key that is not an array. *)
Definition removeProperties (obj : gmap string value)
    (keys : list string + string) : gmap string value :=
  let newObj := obj in
  let newKeys := match keys with inl array => array | inr key => [key] end in
  foldl (λ newObj key,
           if in_object key newObj then delete key newObj else newObj)
    newObj newKeys.

(** The callback of the [forEach] of [mergeObjects]; [add] is the operator
    [+] of [+=]. *)
Definition merge_entry (add : value → value → value)
    (newMerged : gmap string value) (entry : string * value)
  : gmap string value :=
  let '(key, v) := entry in
  if in_object key newMerged
  then set_property newMerged key (add (get_property newMerged key) v)
  else set_property newMerged key v.

Definition mergeObjects (add : value → value → value)
    (objects : list (gmap string value)) : gmap string value :=
  foldl (λ merged obj,
           let newMerged := merged in
           foldl (merge_entry add) newMerged (Object_entries obj))
    ∅ objects.

(** What [mergeObjects] leaves under a key, from the value the key
    inherits, if any, and the values [vs] the objects give it, in order. *)
Definition merged_value (add : value → value → value) (key : string)
    (vs : list value) : option value :=
  match prototype !! key, vs with
  | _, [] => None
  | None, v :: vs => Some (foldl add v vs)
  | Some inherited, v :: vs =>
      if accessor key then None else Some (foldl add inherited (v :: vs))
  end.

End objects.

(** Values for the examples: [undefined], numbers, strings, and what
    [Object.prototype] holds, known by its name only. *)
Inductive primitive : Type :=
| Undefined
| Number (n : Z)
| Text (s : string)
| Builtin (name : string).

#[global] Instance primitive_eq_dec : EqDecision primitive.
Proof. solve_decision. Defined.

Definition Object_prototype : gmap string primitive :=
  list_to_map
    ((λ name, (name, Builtin name))
       <$> ["constructor"; "hasOwnProperty"; "isPrototypeOf";
            "propertyIsEnumerable"; "toLocaleString"; "toString"; "valueOf";
            "__proto__"]).

Definition Object_accessor (key : string) : bool :=
  bool_decide (key = "__proto__").

(** ** function makeWord *)

(** The array [word] with its holes ([None]).  [word[position] = letter]
    on an index beyond the end extends the array and leaves holes in
    between. *)
Definition array_set (word : list (option string)) (position : nat)
    (letter : string) : list (option string) :=
  if decide (position < length word)%nat
  then <[position := Some letter]> word
  else word ++ replicate (position - length word) None ++ [Some letter].

(** [word.join('')]: a hole gives the empty string. *)
Definition join_empty (word : list (option string)) : string :=
  concat_strings (default EmptyString <$> word).

(** [lettersObject] is the list of its entries in the order of
    [Object.keys], each key with its array of positions; the positions are
    array indices. *)
Definition makeWord (lettersObject : list (string * list nat)) : string :=
  let word :=
    foldl (λ word '(letter, positions),
             foldl (λ word position, array_set word position letter)
               word positions)
      [] lettersObject in
  join_empty word.

(** * Properties *)

(** A closed decidable proposition, settled by evaluation. *)
Ltac by_evaluation := apply (bool_decide_unpack _); vm_compute; exact I.

(** ** Strings *)

Lemma append_empty_r (s : string) : s +:+ EmptyString = s.
Proof. induction s as [|c s IH]; [done | exact (f_equal (String c) IH)]. Qed.

Lemma append_assoc (s1 s2 s3 : string) : (s1 +:+ s2) +:+ s3 = s1 +:+ s2 +:+ s3.
Proof. induction s1 as [|c s1 IH]; [done | exact (f_equal (String c) IH)]. Qed.

Lemma reduce_values (acc : string) (els : list fragment) :
  foldl (λ acc el, acc +:+ value el) acc els
  = acc +:+ concat_strings (value <$> els).
Proof.
  revert acc. induction els as [|el els IH]; intros acc; simpl.
  - by rewrite append_empty_r.
  - by rewrite IH, append_assoc.
Qed.

Lemma stringify_concat (this : object) :
  cssSelectorBuilder.stringify this = concat_strings (value <$> selectors this).
Proof. unfold cssSelectorBuilder.stringify. by rewrite reduce_values. Qed.

Lemma messages_differ : unique_message ≠ order_message.
Proof. discriminate. Qed.

(** ** The methods, unfolded *)

Lemma call_unfold (m : method) (v : string) (this : object) :
  cssSelectorBuilder.call m v this
  = (cssSelectorBuilder.validateMetod (type_of m) this ;;
     BaseElement.constructor this
       (Object (selectors this ++ [fragment_of m v]))).
Proof.
  destruct m;
    cbv [cssSelectorBuilder.call Facade.call Facade.element Facade.id
         Facade.class Facade.attr Facade.pseudoClass Facade.pseudoElement
         cssSelectorBuilder.privatMethod fragment_of type_of spec_text
         spec_rank];
    rewrite ?append_empty_r; reflexivity.
Qed.

(** ** [checkOrder] *)

Lemma Sorted_snoc (l : list Z) (x : Z) :
  Sorted Z.le (l ++ [x]) ↔ Sorted Z.le l ∧ ∀ y, last l = Some y → y ≤ x.
Proof.
  induction l as [|a l IH].
  - split; [intros _; split; [constructor | discriminate] |].
    intros _. repeat constructor.
  - destruct l as [|b l].
    + simpl. split.
      * intros [_ H%HdRel_inv]%Sorted_inv.
        split; [repeat constructor | by intros y [= <-]].
      * intros [_ H]. repeat constructor. by apply H.
    + rewrite last_cons_cons. simpl in *. split.
      * intros [[H1 H3]%IH H2%HdRel_inv]%Sorted_inv.
        split; [| done]. constructor; [done | by constructor].
      * intros [[H1 H3%HdRel_inv]%Sorted_inv H2].
        constructor; [apply IH; by split | by constructor].
Qed.

Lemma checkOrder_forEach_spec (prevElOrder : Z) (els : list fragment) :
  BaseElement.checkOrder_forEach prevElOrder els
  = if decide (Sorted Z.le (prevElOrder :: (order <$> els)))
    then Normal tt else Throw order_message.
Proof.
  revert prevElOrder. induction els as [|el els IH]; intros p.
  - destruct (decide _) as [H|H]; [done |]. destruct H. repeat constructor.
  - cbn [BaseElement.checkOrder_forEach]. rewrite IH.
    destruct (decide (Sorted Z.le (p :: _))) as [H|H].
    + apply Sorted_inv in H as [H1 H2%HdRel_inv].
      rewrite bool_decide_eq_false_2 by lia.
      by rewrite decide_True.
    + case_bool_decide as Hlt; [done |].
      rewrite decide_False; [done |].
      intros H1. apply H. constructor; [done | constructor; lia].
Qed.

(** The check passes exactly when the orders, after the initial
    [prevElOrder = 0], never step down. *)
Lemma checkOrder_spec (this : object) :
  BaseElement.checkOrder this
  = if decide (Sorted Z.le (0 :: (order <$> selectors this)))
    then Normal tt else Throw order_message.
Proof. apply checkOrder_forEach_spec. Qed.

Lemma constructor_spec (obj src : object) :
  BaseElement.constructor obj src
  = if decide (Sorted Z.le (0 :: (order <$> selectors src)))
    then Normal (Object (selectors src)) else Throw order_message.
Proof.
  unfold BaseElement.constructor, Object_assign.
  rewrite checkOrder_spec. simpl. by case_decide.
Qed.

(** ** [validateMetod] *)

Lemma occurrences_cons (ty : string) (el : fragment) (els : list fragment) :
  occurrences ty (el :: els)
  = ((if decide (type el = ty) then 1 else 0) + occurrences ty els)%nat.
Proof.
  unfold occurrences. case_decide.
  - by rewrite filter_cons_True.
  - by rewrite filter_cons_False.
Qed.

Lemma occurrences_app (ty : string) (els1 els2 : list fragment) :
  occurrences ty (els1 ++ els2)
  = (occurrences ty els1 + occurrences ty els2)%nat.
Proof. unfold occurrences. by rewrite filter_app, length_app. Qed.

Lemma occurrences_pos (ty : string) (els : list fragment) :
  (0 < occurrences ty els)%nat ↔ ty ∈ type <$> els.
Proof.
  induction els as [|el els IH]; rewrite ?occurrences_cons; simpl.
  - unfold occurrences. simpl. rewrite elem_of_nil. lia.
  - rewrite elem_of_cons, <- IH. case_decide as Hty; split.
    + intros _. by left.
    + lia.
    + intros ?. right. lia.
    + intros [Heq | ?]; [congruence | lia].
Qed.

(** After the [forEach], a property of [validateObj] that started as a
    number holds that number plus the occurrences of its key. *)
Lemma tally_lookup (ty : string) (els : list fragment)
    (validateObj : gmap string number) (n : Z) :
  validateObj !! ty = Some (Num n) →
  foldl cssSelectorBuilder.validate_step validateObj els !! ty
  = Some (Num (n + Z.of_nat (occurrences ty els))).
Proof.
  revert validateObj n.
  induction els as [|el els IH]; intros vo n Hn; simpl.
  - unfold occurrences. simpl. rewrite Hn. do 2 f_equal. lia.
  - rewrite occurrences_cons. unfold cssSelectorBuilder.validate_step at 2.
    case_decide as Hty.
    + rewrite (IH _ (n + 1)).
      * do 2 f_equal. lia.
      * rewrite Hty, lookup_insert_eq, Hn. done.
    + rewrite (IH _ n).
      * do 2 f_equal.
      * by rewrite lookup_insert_ne.
Qed.

Lemma validateMetod_spec (m : method) (this : object) :
  cssSelectorBuilder.validateMetod (type_of m) this
  = if decide (singleton m = true ∧ has_kind m this)
    then Throw unique_message else Normal tt.
Proof.
  unfold cssSelectorBuilder.validateMetod, has_kind.
  destruct (singleton m) eqn:Hm.
  - assert (bool_decide (type_of m ∈ cssSelectorBuilder.validateArr) = true)
      as -> by (by destruct m).
    rewrite (tally_lookup _ _ _ 0) by (by destruct m).
    simpl. case_bool_decide as Hpos; case_decide as Hin; try done.
    + destruct Hin. split; [done |]. apply occurrences_pos. lia.
    + destruct Hin as [_ Hin%occurrences_pos]. lia.
  - assert (bool_decide (type_of m ∈ cssSelectorBuilder.validateArr) = false)
      as -> by (by destruct m).
    rewrite decide_False by (by intros [? _]). done.
Qed.

(** What a call does, in one equation: the uniqueness check, then the
    order check on the extended sequence, then the new object. *)
Lemma call_spec (m : method) (v : string) (this : object) :
  cssSelectorBuilder.call m v this
  = if decide (singleton m = true ∧ has_kind m this)
    then Throw unique_message
    else if decide (Sorted Z.le
                      (0 :: (order <$> selectors this ++ [fragment_of m v])))
         then Normal (Object (selectors this ++ [fragment_of m v]))
         else Throw order_message.
Proof.
  rewrite call_unfold, validateMetod_spec, constructor_spec.
  cbn [selectors].
  destruct (decide (singleton m = true ∧ has_kind m this)); [done |].
  by destruct (decide (Sorted Z.le _)).
Qed.

(** ** Successful calls and chains *)

Lemma call_Normal (m : method) (v : string) (this this' : object) :
  cssSelectorBuilder.call m v this = Normal this' →
  this' = Object (selectors this ++ [fragment_of m v])
  ∧ ¬ (singleton m = true ∧ has_kind m this)
  ∧ Sorted Z.le (0 :: (order <$> selectors this ++ [fragment_of m v])).
Proof.
  rewrite call_spec. repeat case_decide; [done | | done].
  by intros [= <-].
Qed.

Lemma chain_cons (m : method) (v : string) (calls : list (method * string))
    (this : object) :
  cssSelectorBuilder.chain ((m, v) :: calls) this
  = cssSelectorBuilder.call m v this ≫= cssSelectorBuilder.chain calls.
Proof. reflexivity. Qed.

Lemma chain_selectors (calls : list (method * string)) (this this' : object) :
  cssSelectorBuilder.chain calls this = Normal this' →
  selectors this' = selectors this ++ fragments calls.
Proof.
  revert this. induction calls as [|[m v] calls IH]; intros this.
  - intros [= <-]. by rewrite app_nil_r.
  - rewrite chain_cons.
    destruct (cssSelectorBuilder.call m v this) as [next|] eqn:Hcall; [| done].
    intros Hrest%IH. apply call_Normal in Hcall as (-> & _ & _).
    rewrite Hrest. simpl. by rewrite <- app_assoc.
Qed.

Lemma concat_strings_texts (calls : list (method * string)) :
  concat_strings (value <$> fragments calls)
  = concat_strings (uncurry spec_text <$> calls).
Proof.
  unfold fragments. rewrite <- list_fmap_compose. f_equal.
  apply list_fmap_ext. by intros _ [m v] _.
Qed.

(** C1: for every chain of successful builder calls from the root,
    [stringify()] is the concatenation, in call order and without separator,
    of the formatted texts of the calls ([value], ["#"+value], ["."+value],
    ["["+value+"]"], [":"+value], ["::"+value]); and
    [element("a").attr('href$=".png"').pseudoClass("focus").stringify()] is
    [a[href$=".png"]:focus]. *)
Theorem stringify_chain :
  (∀ (calls : list (method * string)) (this : object),
     cssSelectorBuilder.chain calls cssSelectorBuilder.self = Normal this →
     cssSelectorBuilder.stringify this
     = concat_strings (uncurry spec_text <$> calls))
  ∧ ∃ this : object,
      (cssSelectorBuilder.element "a" cssSelectorBuilder.self
         ≫= cssSelectorBuilder.attr ("href$=" +:+ dquote +:+ ".png" +:+ dquote))
        ≫= cssSelectorBuilder.pseudoClass "focus"
      = Normal this
      ∧ cssSelectorBuilder.stringify this
        = "a[href$=" +:+ dquote +:+ ".png" +:+ dquote +:+ "]:focus".
Proof.
  split.
  - intros calls this Hchain%chain_selectors.
    rewrite stringify_concat, Hchain. apply concat_strings_texts.
  - eexists. split; vm_compute; reflexivity.
Qed.

Lemma stringify_chain_witness :
  let calls := [(m_id, "main"); (m_class, "container"); (m_class, "editable")] in
  ∃ this : object,
    cssSelectorBuilder.chain calls cssSelectorBuilder.self = Normal this
    ∧ cssSelectorBuilder.stringify this = "#main.container.editable".
Proof.
  eexists. split; [reflexivity |].
  apply (proj1 stringify_chain
           [(m_id, "main"); (m_class, "container"); (m_class, "editable")]).
  reflexivity.
Defined.

(** C10: [stringify()] on the builder root, before any fragment is added,
    returns the empty string and raises nothing. *)
Theorem stringify_root_empty :
  cssSelectorBuilder.stringify cssSelectorBuilder.self = EmptyString
  ∧ Store.stringify Store.self Store.initial
    = (Normal EmptyString, Store.initial).
Proof. split; reflexivity. Qed.

(** C5: [combine] takes any combinator string as it is, and the
    [stringify()] of its result is the left text, one space, the combinator,
    one space, the right text; results of [combine] are operands like any
    other, and spaces then add up, as in the example of the source. *)
Theorem combine_stringify :
  (∀ (A B : Type) (SA : Stringifiable A) (SB : Stringifiable B)
     (selector1 : A) (combinator : string) (selector2 : B),
     stringify_of (cssSelectorBuilder.combine selector1 combinator selector2)
     = stringify_of selector1 +:+ " " +:+ combinator +:+ " "
         +:+ stringify_of selector2)
  ∧ ∃ div table tr td : object,
      ((cssSelectorBuilder.element "div" cssSelectorBuilder.self
          ≫= cssSelectorBuilder.id "main")
         ≫= cssSelectorBuilder.class "container")
        ≫= cssSelectorBuilder.class "draggable" = Normal div
      ∧ cssSelectorBuilder.element "table" cssSelectorBuilder.self
          ≫= cssSelectorBuilder.id "data" = Normal table
      ∧ cssSelectorBuilder.element "tr" cssSelectorBuilder.self
          ≫= cssSelectorBuilder.pseudoClass "nth-of-type(even)" = Normal tr
      ∧ cssSelectorBuilder.element "td" cssSelectorBuilder.self
          ≫= cssSelectorBuilder.pseudoClass "nth-of-type(even)" = Normal td
      ∧ stringify_of
          (cssSelectorBuilder.combine div "+"
             (cssSelectorBuilder.combine table "~"
                (cssSelectorBuilder.combine tr " " td)))
        = "div#main.container.draggable + table#data ~ tr:nth-of-type(even)   td:nth-of-type(even)".
Proof.
  split; [reflexivity |].
  do 4 eexists. repeat split; vm_compute; reflexivity.
Qed.

(** ** The invariant *)

#[global] Instance type_of_inj : Inj (=) (=) type_of.
Proof. intros [] [] H; (reflexivity || discriminate H). Qed.

Lemma Sorted_app_l (l1 l2 : list Z) :
  Sorted Z.le (l1 ++ l2) → Sorted Z.le l1.
Proof.
  intros H%Sorted_StronglySorted; [| apply _].
  apply StronglySorted_Sorted. by apply StronglySorted_app_1_l in H.
Qed.

Lemma last_orders (els : list fragment) (prev : fragment) :
  last els = Some prev →
  last (0 :: (order <$> els)) = Some (order prev).
Proof.
  intros [els' ->]%last_Some.
  by rewrite fmap_snoc, app_comm_cons, last_snoc.
Qed.

(** The order check on an extended sequence, from the check on the sequence
    and the last order. *)
Lemma Sorted_orders_snoc (els : list fragment) (el : fragment) :
  Sorted Z.le (0 :: (order <$> els ++ [el]))
  ↔ Sorted Z.le (0 :: (order <$> els))
    ∧ ∀ y, last (0 :: (order <$> els)) = Some y → y ≤ order el.
Proof. rewrite fmap_snoc, app_comm_cons. apply Sorted_snoc. Qed.

Lemma occurrences_snoc (m m' : method) (v : string) (els : list fragment) :
  occurrences (type_of m') (els ++ [fragment_of m v])
  = (occurrences (type_of m') els + if decide (m = m') then 1 else 0)%nat.
Proof.
  rewrite occurrences_app. f_equal.
  unfold occurrences. simpl. case_decide as Hm.
  - subst. by rewrite filter_cons_True.
  - rewrite filter_cons_False; [done |]. simpl. by intros ?%(inj type_of).
Qed.

Lemma not_has_kind (m : method) (this : object) :
  ¬ has_kind m this ↔ occurrences (type_of m) (selectors this) = 0%nat.
Proof. unfold has_kind. rewrite <- occurrences_pos. lia. Qed.

Lemma invariant_self : invariant cssSelectorBuilder.self.
Proof. split; [constructor | intros m _; cbv; lia]. Qed.

Lemma invariant_call (m : method) (v : string) (this this' : object) :
  invariant this →
  cssSelectorBuilder.call m v this = Normal this' →
  invariant this'.
Proof.
  intros [_ Honce] (-> & Hfresh & [Hsorted _]%Sorted_inv)%call_Normal.
  split; [done |]. intros m' Hm'. simpl. rewrite occurrences_snoc.
  case_decide as Hm; [subst m' | specialize (Honce m' Hm'); lia].
  assert (¬ has_kind m this) as Hnone%not_has_kind by tauto.
  lia.
Qed.

(** Every constructed object passed [checkOrder]. *)
Lemma constructed_checked (this : object) :
  constructed this → Sorted Z.le (0 :: (order <$> selectors this)).
Proof.
  intros [|m v this0 this1 _ (-> & _ & Hsorted)%call_Normal]; [| done].
  repeat constructor.
Qed.

Lemma constructed_invariant (this : object) :
  constructed this → invariant this.
Proof.
  induction 1 as [|m v this this' _ IH Hcall].
  - apply invariant_self.
  - by apply (invariant_call m v this).
Qed.

Lemma rank_positive (m : method) : 0 ≤ spec_rank m.
Proof. destruct m; simpl; lia. Qed.

(** A sequence of calls whose fragments keep the receiver's sequence
    ordered and its singleton kinds unique runs to its end. *)
Lemma chain_succeeds (calls : list (method * string)) (this : object) :
  Sorted Z.le (0 :: (order <$> selectors this ++ fragments calls)) →
  at_most_once (selectors this ++ fragments calls) →
  cssSelectorBuilder.chain calls this
  = Normal (Object (selectors this ++ fragments calls)).
Proof.
  revert this. induction calls as [|[m v] calls IH]; intros [els].
  - simpl. by rewrite app_nil_r.
  - change (fragments ((m, v) :: calls))
      with (fragment_of m v :: fragments calls).
    cbn [selectors]. rewrite cons_middle, app_assoc.
    intros Hsorted Honce. rewrite chain_cons, call_spec. cbn [selectors].
    rewrite decide_False, decide_True.
    + apply (IH (Object (els ++ [fragment_of m v]))); done.
    + rewrite fmap_app, app_comm_cons in Hsorted.
      by apply Sorted_app_l in Hsorted.
    + intros [Hm Hin%occurrences_pos]. specialize (Honce m Hm).
      rewrite occurrences_app, occurrences_snoc, decide_True in Honce by done.
      simpl in Hin. lia.
Qed.

Lemma chain_replicate (m : method) (v : string) (n : nat) (this : object) :
  singleton m = false →
  Sorted Z.le (0 :: (order <$> selectors this)) →
  (∀ y, last (0 :: (order <$> selectors this)) = Some y → y ≤ spec_rank m) →
  cssSelectorBuilder.chain (replicate n (m, v)) this
  = Normal (Object (selectors this ++ replicate n (fragment_of m v))).
Proof.
  intros Hm. revert this. induction n as [|n IH]; intros [els] Hsorted Hlast.
  - simpl. by rewrite app_nil_r.
  - cbn [replicate]. rewrite chain_cons, call_spec.
    rewrite decide_False by (rewrite Hm; by intros [? _]).
    rewrite decide_True by (by apply Sorted_orders_snoc).
    simpl. rewrite IH; simpl.
    + by rewrite <- app_assoc.
    + by apply Sorted_orders_snoc.
    + rewrite fmap_snoc, app_comm_cons, last_snoc. by intros y [= <-].
Qed.

(** ** The claims on errors *)

(** C2, amended: a call whose rank is strictly below the rank of the last
    fragment of the receiver, and which the uniqueness check lets through,
    throws the order error; the order check is [checkOrder] on the whole
    sequence with the new fragment appended; and on a constructed selector a
    call whose rank equals the rank of the last fragment never throws the
    order error. *)
Theorem out_of_order_rejected :
  (∀ (m : method) (v : string) (this : object) (prev : fragment),
     last (selectors this) = Some prev →
     spec_rank m < order prev →
     ¬ (singleton m = true ∧ has_kind m this) →
     cssSelectorBuilder.call m v this = Throw order_message)
  ∧ (∀ (m : method) (v : string) (this : object),
       ¬ (singleton m = true ∧ has_kind m this) →
       let extended := Object (selectors this ++ [fragment_of m v]) in
       cssSelectorBuilder.call m v this
       = (BaseElement.checkOrder extended ;; Normal extended))
  ∧ (∀ (m : method) (v : string) (this : object) (prev : fragment),
       constructed this →
       last (selectors this) = Some prev →
       spec_rank m = order prev →
       cssSelectorBuilder.call m v this ≠ Throw order_message).
Proof.
  split; [| split].
  - intros m v this prev Hlast Hlt Hfresh. rewrite call_spec.
    rewrite decide_False by done. rewrite decide_False; [done |].
    intros [_ Hle]%Sorted_orders_snoc.
    specialize (Hle _ (last_orders _ _ Hlast)). simpl in Hle. lia.
  - intros m v this Hfresh extended. rewrite call_spec, checkOrder_spec.
    rewrite decide_False by done. subst extended. simpl.
    by destruct (decide (Sorted Z.le _)).
  - intros m v this prev Hthis%constructed_checked Hlast Heq.
    rewrite call_spec. case_decide; [discriminate |].
    rewrite decide_True; [done |]. apply Sorted_orders_snoc. split; [done |].
    intros y Hy. rewrite (last_orders _ _ Hlast) in Hy.
    injection Hy as <-. simpl. lia.
Qed.

Lemma out_of_order_rejected_witness :
  let this := Object [fragment_of m_class "a"] in
  last (selectors this) = Some (fragment_of m_class "a")
  ∧ spec_rank m_element < order (fragment_of m_class "a")
  ∧ ¬ (singleton m_element = true ∧ has_kind m_element this)
  ∧ cssSelectorBuilder.call m_element "div" this = Throw order_message.
Proof.
  split; [reflexivity |]. split; [simpl; lia |]. split; [by_evaluation |].
  apply (proj1 out_of_order_rejected m_element "div"
           (Object [fragment_of m_class "a"]) (fragment_of m_class "a"));
    [reflexivity | simpl; lia | by_evaluation].
Defined.

(** C2 as stated fails: after [element("div").class("a")], the call
    [element("span")] has rank 1, strictly below the rank 3 of the last
    fragment, and throws the uniqueness error, not the order error. *)
Lemma out_of_order_counterexample :
  let this := Object [fragment_of m_element "div"; fragment_of m_class "a"] in
  cssSelectorBuilder.element "div" cssSelectorBuilder.self
    ≫= cssSelectorBuilder.class "a" = Normal this
  ∧ last (selectors this) = Some (fragment_of m_class "a")
  ∧ spec_rank m_element < order (fragment_of m_class "a")
  ∧ cssSelectorBuilder.element "span" this = Throw unique_message
  ∧ cssSelectorBuilder.element "span" this ≠ Throw order_message.
Proof.
  split; [reflexivity |]. split; [reflexivity |]. split; [simpl; lia |].
  split; [reflexivity | discriminate].
Qed.

(** C3, amended: a call of [element], [id] or [pseudoElement] on a selector
    that already has a fragment of that kind throws the uniqueness error,
    whatever the order check would say; the error is the one fixed message
    for the three kinds.  [class], [attr] and [pseudoClass] never throw it,
    and any number of them in a row is accepted. *)
Theorem duplicate_singleton_rejected :
  (∀ (m : method) (v : string) (this : object),
     singleton m = true → has_kind m this →
     cssSelectorBuilder.call m v this = Throw unique_message)
  ∧ (∀ (m : method) (v : string) (this : object),
       singleton m = false →
       cssSelectorBuilder.call m v this ≠ Throw unique_message)
  ∧ (∀ (m : method) (v : string) (n : nat),
       singleton m = false →
       cssSelectorBuilder.chain (replicate n (m, v)) cssSelectorBuilder.self
       = Normal (Object (replicate n (fragment_of m v)))).
Proof.
  split; [| split].
  - intros m v this Hm Hin. rewrite call_spec. by rewrite decide_True by done.
  - intros m v this Hm. rewrite call_spec.
    rewrite decide_False by (rewrite Hm; by intros [? _]).
    case_decide; discriminate.
  - intros m v n Hm. apply (chain_replicate m v n cssSelectorBuilder.self Hm).
    + repeat constructor.
    + intros y [= <-]. apply rank_positive.
Qed.

Lemma duplicate_singleton_rejected_witness :
  let this := Object [fragment_of m_element "div"] in
  singleton m_element = true
  ∧ has_kind m_element this
  ∧ cssSelectorBuilder.call m_element "span" this = Throw unique_message.
Proof.
  split; [reflexivity |]. split; [by_evaluation |].
  apply (proj1 duplicate_singleton_rejected m_element "span"
           (Object [fragment_of m_element "div"]));
    [reflexivity | by_evaluation].
Defined.

(** C3 as stated fails: the error thrown for a second [element] is the very
    error thrown for a second [id], so it identifies no kind. *)
Lemma duplicate_error_names_no_kind :
  let this := Object [fragment_of m_element "div"; fragment_of m_id "main"] in
  cssSelectorBuilder.element "div" cssSelectorBuilder.self
    ≫= cssSelectorBuilder.id "main" = Normal this
  ∧ cssSelectorBuilder.element "span" this = Throw unique_message
  ∧ cssSelectorBuilder.id "nav" this = Throw unique_message
  ∧ ¬ ∃ kind_of : string → method,
        ∀ (m : method) (v e : string),
          singleton m = true → has_kind m this →
          cssSelectorBuilder.call m v this = Throw e → kind_of e = m.
Proof.
  split; [reflexivity |]. split; [reflexivity |]. split; [reflexivity |].
  intros [kind_of Hkind].
  assert (kind_of unique_message = m_element) as He.
  { apply (Hkind m_element "span"); [reflexivity | by_evaluation | reflexivity]. }
  assert (kind_of unique_message = m_id) as Hi.
  { apply (Hkind m_id "nav"); [reflexivity | by_evaluation | reflexivity]. }
  congruence.
Qed.

(** C4: when a call breaks the uniqueness rule and the order rule at once,
    [validateMetod] runs first and the call throws the uniqueness error, not
    the order error. *)
Theorem duplicate_before_order (m : method) (v : string) (this : object) :
  singleton m = true → has_kind m this →
  ¬ nondecreasing (selectors this ++ [fragment_of m v]) →
  BaseElement.checkOrder (Object (selectors this ++ [fragment_of m v]))
  = Throw order_message
  ∧ cssSelectorBuilder.call m v this = Throw unique_message
  ∧ cssSelectorBuilder.call m v this ≠ Throw order_message.
Proof.
  intros Hm Hin Horder. split; [| split].
  - rewrite checkOrder_spec. rewrite decide_False; [done |].
    by intros [? _]%Sorted_inv.
  - rewrite call_spec. by rewrite decide_True by done.
  - rewrite call_spec. rewrite decide_True by done. discriminate.
Qed.

Lemma duplicate_before_order_witness :
  let this := Object [fragment_of m_element "div"; fragment_of m_class "a"] in
  singleton m_element = true
  ∧ has_kind m_element this
  ∧ ¬ nondecreasing (selectors this ++ [fragment_of m_element "span"])
  ∧ cssSelectorBuilder.call m_element "span" this = Throw unique_message.
Proof.
  split; [reflexivity |]. split; [by_evaluation |]. split; [by_evaluation |].
  apply (duplicate_before_order m_element "span"
           (Object [fragment_of m_element "div"; fragment_of m_class "a"]));
    [reflexivity | by_evaluation | by_evaluation].
Defined.

(** C6, amended: a sequence of calls whose ranks never step down and in
    which [element], [id] and [pseudoElement] each occur at most once builds
    without error, and the result holds the fragments of the calls in
    order. *)
Theorem valid_order_builds (calls : list (method * string)) :
  nondecreasing (fragments calls) →
  at_most_once (fragments calls) →
  cssSelectorBuilder.chain calls cssSelectorBuilder.self
  = Normal (Object (fragments calls)).
Proof.
  intros Hsorted Honce.
  apply (chain_succeeds calls cssSelectorBuilder.self); [| done].
  simpl. constructor; [done |].
  destruct calls as [|[m v] calls]; constructor. apply rank_positive.
Qed.

Lemma valid_order_builds_witness :
  let calls := [(m_element, "a"); (m_id, "x"); (m_class, "c"); (m_class, "d");
                (m_attr, "href"); (m_pseudoClass, "hover");
                (m_pseudoElement, "after")] in
  nondecreasing (fragments calls)
  ∧ at_most_once (fragments calls)
  ∧ cssSelectorBuilder.chain calls cssSelectorBuilder.self
    = Normal (Object (fragments calls)).
Proof.
  assert (∀ calls, (∀ m, singleton m = true →
                      occurrences (type_of m) (fragments calls) ≤ 1)%nat
                   → at_most_once (fragments calls)) as Honce by done.
  split; [by_evaluation |]. split.
  - apply Honce. intros [] ?; try discriminate; vm_compute; lia.
  - apply valid_order_builds; [by_evaluation |].
    apply Honce. intros [] ?; try discriminate; vm_compute; lia.
Defined.

(** C6 as stated fails: [element] twice is a sequence of non-decreasing
    ranks (1, 1), and building it throws. *)
Lemma valid_order_counterexample :
  let calls := [(m_element, "div"); (m_element, "span")] in
  Sorted Z.le (spec_rank ∘ fst <$> calls)
  ∧ nondecreasing (fragments calls)
  ∧ cssSelectorBuilder.chain calls cssSelectorBuilder.self
    = Throw unique_message.
Proof.
  split; [by_evaluation |]. split; [by_evaluation | reflexivity].
Qed.

(** C7: every object built by successful calls from the root has
    non-decreasing ranks and at most one fragment of each singleton kind;
    every successful call keeps the invariant; and a call whose fragment
    would break it is rejected with an error. *)
Theorem invariant_maintained :
  (∀ this : object, constructed this → invariant this)
  ∧ (∀ (m : method) (v : string) (this this' : object),
       invariant this →
       cssSelectorBuilder.call m v this = Normal this' →
       this' = Object (selectors this ++ [fragment_of m v])
       ∧ invariant this')
  ∧ (∀ (m : method) (v : string) (this : object),
       invariant this →
       ¬ invariant (Object (selectors this ++ [fragment_of m v])) →
       cssSelectorBuilder.call m v this = Throw unique_message
       ∨ cssSelectorBuilder.call m v this = Throw order_message).
Proof.
  split; [exact constructed_invariant | split].
  - intros m v this this' Hinv Hcall. split.
    + by apply call_Normal in Hcall as (-> & _).
    + by apply (invariant_call m v this).
  - intros m v this Hinv Hbreak.
    destruct (cssSelectorBuilder.call m v this) as [this'|e] eqn:Hcall.
    + destruct Hbreak. pose proof Hcall as (<- & _)%call_Normal.
      by apply (invariant_call m v this).
    + rewrite call_spec in Hcall.
      destruct (decide (singleton m = true ∧ has_kind m this));
        [left; congruence |].
      destruct (decide (Sorted Z.le _)); [discriminate | right; congruence].
Qed.

Lemma invariant_maintained_witness :
  constructed (Object [fragment_of m_id "main"; fragment_of m_class "c"])
  ∧ invariant (Object [fragment_of m_id "main"; fragment_of m_class "c"]).
Proof.
  assert (constructed (Object [fragment_of m_id "main"; fragment_of m_class "c"]))
    as Hc.
  { apply (constructed_call m_class "c" (Object [fragment_of m_id "main"]));
      [| reflexivity].
    apply (constructed_call m_id "main" cssSelectorBuilder.self);
      [constructor | reflexivity]. }
  split; [exact Hc |].
  exact (proj1 invariant_maintained _ Hc).
Defined.

(** ** The store layer *)

Lemma fresh_lookup (h : gmap Store.loc Store.cell) : h !! fresh (dom h) = None.
Proof. apply not_elem_of_dom, is_fresh. Qed.

Lemma contents_lookup (h : gmap Store.loc Store.cell) (o : Store.loc)
    (els : list fragment) :
  Store.contents h o = Some els ↔
  ∃ a, h !! o = Some (Store.Obj (Some a)) ∧ h !! a = Some (Store.Arr els).
Proof.
  unfold Store.contents. split.
  - destruct (h !! o) as [[|[a|]]|] eqn:Ho; try done.
    destruct (h !! a) as [[items|]|] eqn:Ha; try done.
    intros [= <-]. by exists a.
  - intros (a & -> & ->). done.
Qed.

Lemma contents_weaken (h h' : gmap Store.loc Store.cell) (o : Store.loc)
    (els : list fragment) :
  h ⊆ h' → Store.contents h o = Some els → Store.contents h' o = Some els.
Proof.
  intros Hsub (a & Ho & Ha)%contents_lookup. apply contents_lookup.
  exists a. split; by eapply lookup_weaken.
Qed.

Lemma snapshot_run (this : Store.loc) (h : gmap Store.loc Store.cell) :
  Store.snapshot this h
  = (match Store.contents h this with
     | Some els => Normal (Object els)
     | None => Throw Store.type_error
     end, h).
Proof.
  unfold Store.snapshot, Store.contents, mbind, Store.M_bind,
    Store.get_selectors, Store.read_array.
  destruct (h !! this) as [[|[a|]]|]; try done.
  destruct (h !! a) as [[items|]|]; done.
Qed.

Lemma constructor_run (obj src : Store.loc) (h : gmap Store.loc Store.cell)
    (a b : Store.loc) (els : list fragment) :
  h !! obj = Some (Store.Obj (Some a)) →
  h !! src = Some (Store.Obj (Some b)) →
  h !! b = Some (Store.Arr els) →
  Store.constructor obj src h
  = (BaseElement.checkOrder (Object els) ;; Normal (fresh (dom h)),
     <[fresh (dom h) := Store.Obj (Some b)]> h).
Proof.
  intros Hobj Hsrc Hb. pose proof (fresh_lookup h) as Hfresh.
  set (this := fresh (dom h)) in *.
  assert (this ≠ obj) by congruence.
  assert (this ≠ src) by congruence.
  assert (this ≠ b) by congruence.
  unfold Store.constructor, Store.Object_assign, Store.checkOrder,
    mbind, Store.M_bind, Store.alloc, Store.get_selectors,
    Store.set_selectors.
  fold this. simplify_map_eq. rewrite !insert_insert_eq, snapshot_run.
  assert (Store.contents (<[this:=Store.Obj (Some b)]> h) this = Some els)
    as ->.
  { apply contents_lookup. exists b. by simplify_map_eq. }
  unfold Store.lift.
  by destruct (BaseElement.checkOrder (Object els)) as [[]|e].
Qed.

Lemma privatMethod_run (prefix : string) (order : Z) (type value : string)
    (prefixEnd : string) (this : Store.loc) (h : gmap Store.loc Store.cell)
    (els : list fragment) :
  Store.contents h this = Some els →
  let extended :=
    els ++ [ {| type := type; value := prefix +:+ value +:+ prefixEnd;
                order := order |} ] in
  ∃ (r : Store.loc) (h' : gmap Store.loc Store.cell),
    Store.privatMethod prefix order type value prefixEnd this h
    = (BaseElement.checkOrder (Object extended) ;; Normal r, h')
    ∧ h ⊆ h' ∧ h !! r = None ∧ Store.contents h' r = Some extended.
Proof.
  intros (a & Hthis & Ha)%contents_lookup extended.
  unfold Store.privatMethod, mbind, Store.M_bind, Store.get_selectors,
    Store.read_array, Store.alloc.
  rewrite Hthis, Ha. fold extended.
  pose proof (fresh_lookup h) as Hl1.
  set (l1 := fresh (dom h)) in *.
  set (h1 := <[l1 := Store.Arr extended]> h).
  pose proof (fresh_lookup h1) as Hl2.
  set (l2 := fresh (dom h1)) in *.
  set (h2 := <[l2 := Store.Obj (Some l1)]> h1).
  pose proof (fresh_lookup h2) as Hl3.
  assert (h ⊆ h1) as Hh1 by (by apply insert_subseteq).
  assert (h1 ⊆ h2) as Hh2 by (by apply insert_subseteq).
  assert (h1 !! l1 = Some (Store.Arr extended)) as Hext
    by apply lookup_insert_eq.
  rewrite (constructor_run this l2 h2 a l1 extended).
  - eexists _, _. split; [reflexivity |].
    assert (h2 ⊆ <[fresh (dom h2) := Store.Obj (Some l1)]> h2) as Hh3
      by (by apply insert_subseteq).
    split; [by do 2 (etrans; [eassumption |]) |].
    split; [eapply lookup_weaken_None; [exact Hl3 | by etrans] |].
    apply contents_lookup. exists l1. split; [apply lookup_insert_eq |].
    eapply lookup_weaken; [exact Hext | by etrans].
  - eapply lookup_weaken; [exact Hthis | by etrans].
  - apply lookup_insert_eq.
  - eapply lookup_weaken; [exact Hext | done].
Qed.

Lemma validateMetod_run (selectorType : string) (this : Store.loc)
    (h : gmap Store.loc Store.cell) :
  Store.validateMetod selectorType this h
  = (match Store.contents h this with
     | Some els => cssSelectorBuilder.validateMetod selectorType (Object els)
     | None => Throw Store.type_error
     end, h).
Proof.
  unfold Store.validateMetod, mbind, Store.M_bind. rewrite snapshot_run.
  by destruct (Store.contents h this).
Qed.

Lemma store_call_unfold (m : method) (v : string) (this : Store.loc) :
  ∃ prefix prefixEnd : string,
    prefix +:+ v +:+ prefixEnd = spec_text m v
    ∧ Store.call m v this
      = (Store.validateMetod (type_of m) this ;;
         Store.privatMethod prefix (spec_rank m) (type_of m) v prefixEnd this).
Proof.
  destruct m; eexists _, _; (split; [| reflexivity]);
    rewrite ?append_empty_r; reflexivity.
Qed.

(** A call in the store does what the call of the value layer does on the
    items of the receiver; it only adds cells to the heap, and the object it
    returns is a new one. *)
Lemma store_call_run (m : method) (v : string) (this : Store.loc)
    (h : gmap Store.loc Store.cell) (els : list fragment) :
  Store.contents h this = Some els →
  ∃ h' : gmap Store.loc Store.cell,
    h ⊆ h'
    ∧ match cssSelectorBuilder.call m v (Object els) with
      | Normal this' =>
          ∃ r : Store.loc,
            Store.call m v this h = (Normal r, h')
            ∧ h !! r = None
            ∧ Store.contents h' r = Some (selectors this')
      | Throw e => Store.call m v this h = (Throw e, h')
      end.
Proof.
  intros Hthis.
  destruct (store_call_unfold m v this) as (p & e & Htext & Hcall).
  assert (Store.call m v this h
          = match cssSelectorBuilder.validateMetod (type_of m) (Object els) with
            | Normal _ =>
                Store.privatMethod p (spec_rank m) (type_of m) v e this h
            | Throw e => (Throw e, h)
            end) as ->.
  { rewrite Hcall. unfold mbind, Store.M_bind.
    by rewrite validateMetod_run, Hthis. }
  rewrite call_unfold. unfold BaseElement.constructor, Object_assign.
  cbn [selectors].
  destruct (cssSelectorBuilder.validateMetod _ _) as [[]|msg]; simpl;
    [| by exists h].
  destruct (privatMethod_run p (spec_rank m) (type_of m) v e this h els Hthis)
    as (r & h' & -> & Hsub & Hr & Hcontents).
  rewrite Htext in Hcontents |- *. fold (fragment_of m v) in Hcontents |- *.
  exists h'. split; [done |].
  destruct (BaseElement.checkOrder _) as [[]|msg]; simpl; [| done].
  by exists r.
Qed.

Lemma store_call_grows (m : method) (v : string) (this : Store.loc)
    (h : gmap Store.loc Store.cell) :
  h ⊆ (Store.call m v this h).2.
Proof.
  destruct (Store.contents h this) as [els|] eqn:Hthis.
  - destruct (store_call_run m v this h els Hthis) as (h' & Hsub & Hrun).
    destruct (cssSelectorBuilder.call m v (Object els)).
    + by destruct Hrun as (r & -> & _).
    + by rewrite Hrun.
  - destruct (store_call_unfold m v this) as (p & e & _ & ->).
    unfold mbind, Store.M_bind. by rewrite validateMetod_run, Hthis.
Qed.

Lemma store_call_observe (m : method) (v : string) (this : Store.loc)
    (h : gmap Store.loc Store.cell) (els : list fragment) :
  Store.contents h this = Some els →
  Store.observe (Store.call m v this h)
  = (this' ← cssSelectorBuilder.call m v (Object els);
     Normal (Some (selectors this'))).
Proof.
  intros Hthis.
  destruct (store_call_run m v this h els Hthis) as (h' & _ & Hrun).
  destruct (cssSelectorBuilder.call m v (Object els)) as [this'|e].
  - destruct Hrun as (r & -> & _ & Hr). simpl. by rewrite Hr.
  - by rewrite Hrun.
Qed.

Lemma store_chain_cons (m : method) (v : string)
    (calls : list (method * string)) (this : Store.loc) :
  Store.chain ((m, v) :: calls) this
  = Store.call m v this ≫= Store.chain calls.
Proof. reflexivity. Qed.

Lemma store_chain_run (calls : list (method * string)) (this : Store.loc)
    (h : gmap Store.loc Store.cell) (els : list fragment) :
  Store.contents h this = Some els →
  h ⊆ (Store.chain calls this h).2
  ∧ Store.observe (Store.chain calls this h)
    = (this' ← cssSelectorBuilder.chain calls (Object els);
       Normal (Some (selectors this'))).
Proof.
  revert this h els.
  induction calls as [|[m v] calls IH]; intros this h els Hthis.
  - simpl. by rewrite Hthis.
  - rewrite store_chain_cons, chain_cons.
    destruct (store_call_run m v this h els Hthis) as (h' & Hsub & Hrun).
    unfold mbind at 1 2. unfold Store.M_bind.
    destruct (cssSelectorBuilder.call m v (Object els)) as [[els']|e].
    + destruct Hrun as (r & -> & _ & Hr).
      destruct (IH r h' els' Hr) as [Hsub' Hobs].
      split; [by etrans | exact Hobs].
    + rewrite Hrun. done.
Qed.

Lemma reachable_self (h : gmap Store.loc Store.cell) :
  reachable h → Store.contents h Store.self = Some [].
Proof.
  induction 1 as [|m v this h _ IH]; [reflexivity |].
  eapply contents_weaken; [apply store_call_grows | exact IH].
Qed.

Lemma store_call_Normal (m : method) (v : string) (this r : Store.loc)
    (h h' : gmap Store.loc Store.cell) (els : list fragment) :
  Store.contents h this = Some els →
  Store.call m v this h = (Normal r, h') →
  h !! r = None
  ∧ Store.contents h' r = Some (els ++ [fragment_of m v])
  ∧ Store.contents h' this = Some els.
Proof.
  intros Hthis Hcall.
  pose proof (store_call_grows m v this h) as Hsub.
  destruct (store_call_run m v this h els Hthis) as (h1 & _ & Hrun).
  destruct (cssSelectorBuilder.call m v (Object els)) as [this'|e] eqn:Hvalue.
  - destruct Hrun as (r1 & Hrun & Hfresh & Hr).
    rewrite Hcall in Hrun, Hsub. injection Hrun as <- <-.
    apply call_Normal in Hvalue as (-> & _).
    split; [done |]. split; [done |].
    by apply (contents_weaken h h').
  - congruence.
Qed.

(** ** The claims on mutation *)

(** C8: no builder call mutates anything: every cell of the heap, the
    receiver and the root among them, is after the call what it was before;
    a successful call returns a new object whose fragments are those of the
    receiver plus the appended one; [stringify] leaves the heap as it is; the
    fragments of the root are the empty sequence in every reachable heap; and
    a chain run from an object gives the same outcome whatever chains were
    run from that object before. *)
Theorem calls_never_mutate :
  (∀ (m : method) (v : string) (this : Store.loc)
     (h : gmap Store.loc Store.cell) (l : Store.loc) (c : Store.cell),
     h !! l = Some c → (Store.call m v this h).2 !! l = Some c)
  ∧ (∀ (m : method) (v : string) (this r : Store.loc)
       (h h' : gmap Store.loc Store.cell) (els : list fragment),
       Store.contents h this = Some els →
       Store.call m v this h = (Normal r, h') →
       h !! r = None
       ∧ Store.contents h' r = Some (els ++ [fragment_of m v])
       ∧ Store.contents h' this = Some els)
  ∧ (∀ (this : Store.loc) (h : gmap Store.loc Store.cell),
       (Store.stringify this h).2 = h)
  ∧ (∀ h : gmap Store.loc Store.cell,
       reachable h → Store.contents h Store.self = Some [])
  ∧ (∀ (first second : list (method * string)) (this : Store.loc)
       (h : gmap Store.loc Store.cell) (els : list fragment),
       Store.contents h this = Some els →
       Store.observe (Store.chain second this (Store.chain first this h).2)
       = Store.observe (Store.chain second this h)).
Proof.
  split; [| split; [| split; [| split]]].
  - intros m v this h l c Hl.
    eapply lookup_weaken; [exact Hl | apply store_call_grows].
  - exact store_call_Normal.
  - intros this h. unfold Store.stringify, mbind, Store.M_bind.
    rewrite snapshot_run. by destruct (Store.contents h this).
  - exact reachable_self.
  - intros first second this h els Hthis.
    destruct (store_chain_run first this h els Hthis) as [Hsub _].
    pose proof (contents_weaken _ _ _ _ Hsub Hthis) as Hthis'.
    destruct (store_chain_run second this h els Hthis) as [_ ->].
    by destruct (store_chain_run second this _ els Hthis') as [_ ->].
Qed.

Lemma calls_never_mutate_witness :
  Store.contents Store.initial Store.self = Some []
  ∧ ∃ (r : Store.loc) (h' : gmap Store.loc Store.cell),
      Store.call m_id "main" Store.self Store.initial = (Normal r, h')
      ∧ Store.initial !! r = None
      ∧ Store.contents h' r = Some [fragment_of m_id "main"]
      ∧ Store.contents h' Store.self = Some [].
Proof.
  split; [reflexivity |].
  destruct (Store.call m_id "main" Store.self Store.initial)
    as [[r|e] h'] eqn:Hcall.
  - exists r, h'. split; [reflexivity |].
    apply (proj1 (proj2 calls_never_mutate) m_id "main" Store.self r
             Store.initial h' []); [reflexivity | exact Hcall].
  - vm_compute in Hcall. discriminate Hcall.
Defined.

(** C9: a call that throws leaves the fragments of its receiver, and of
    every other object, as they were; any call made on the receiver
    afterwards has the outcome it would have had without the failed call,
    which is the outcome of the value layer on the receiver's fragments. *)
Theorem failed_call_changes_nothing (m : method) (v : string)
    (this : Store.loc) (h h' : gmap Store.loc Store.cell)
    (els : list fragment) (e : string) :
  Store.contents h this = Some els →
  Store.call m v this h = (Throw e, h') →
  Store.contents h' this = Some els
  ∧ (∀ (o : Store.loc) (items : list fragment),
       Store.contents h o = Some items → Store.contents h' o = Some items)
  ∧ (∀ (m' : method) (v' : string),
       Store.observe (Store.call m' v' this h')
       = Store.observe (Store.call m' v' this h)
       ∧ Store.observe (Store.call m' v' this h)
         = (this' ← cssSelectorBuilder.call m' v' (Object els);
            Normal (Some (selectors this')))).
Proof.
  intros Hthis Hcall.
  pose proof (store_call_grows m v this h) as Hsub. rewrite Hcall in Hsub.
  pose proof (contents_weaken _ _ _ _ Hsub Hthis) as Hthis'.
  split; [done |]. split; [intros o items; by apply contents_weaken |].
  intros m' v'.
  by rewrite (store_call_observe m' v' this h' els),
    (store_call_observe m' v' this h els).
Qed.

Lemma failed_call_changes_nothing_witness :
  ∃ (this : Store.loc) (h h' : gmap Store.loc Store.cell),
    Store.class "a" Store.self Store.initial = (Normal this, h)
    ∧ Store.contents h this = Some [fragment_of m_class "a"]
    ∧ Store.call m_element "div" this h = (Throw order_message, h')
    ∧ Store.contents h' this = Some [fragment_of m_class "a"]
    ∧ Store.observe (Store.call m_attr "x" this h')
      = Normal (Some [fragment_of m_class "a"; fragment_of m_attr "x"]).
Proof.
  destruct (Store.class "a" Store.self Store.initial)
    as [[this|e] h] eqn:Hfirst; [| vm_compute in Hfirst; discriminate Hfirst].
  assert (Store.contents h this = Some [fragment_of m_class "a"]) as Hthis.
  { apply (store_call_Normal m_class "a" Store.self this Store.initial h []);
      [reflexivity | exact Hfirst]. }
  destruct (Store.call m_element "div" this h) as [c h'] eqn:Hcall.
  assert (c = Throw order_message) as ->.
  { pose proof (store_call_observe m_element "div" this h _ Hthis) as Hobs.
    rewrite Hcall in Hobs. destruct c as [|message]; [discriminate Hobs |].
    vm_compute in Hobs. injection Hobs as ->. reflexivity. }
  exists this, h, h'. split; [reflexivity |]. split; [exact Hthis |].
  split; [exact Hcall |].
  destruct (failed_call_changes_nothing m_element "div" this h h'
              [fragment_of m_class "a"] order_message Hthis Hcall)
    as (Hkept & _ & Hnext).
  split; [exact Hkept |].
  destruct (Hnext m_attr "x") as [-> ->]. reflexivity.
Defined.

(** ** The scenarios of the specification *)

Example scenario_combine :
  ∃ div table : object,
    cssSelectorBuilder.element "div" cssSelectorBuilder.self
      ≫= cssSelectorBuilder.id "main" = Normal div
    ∧ cssSelectorBuilder.element "table" cssSelectorBuilder.self
        ≫= cssSelectorBuilder.id "data" = Normal table
    ∧ stringify_of (cssSelectorBuilder.combine div "+" table)
      = "div#main + table#data".
Proof. do 2 eexists. repeat split; vm_compute; reflexivity. Qed.

Example scenario_second_element :
  cssSelectorBuilder.element "div" cssSelectorBuilder.self
    ≫= cssSelectorBuilder.element "span" = Throw unique_message.
Proof. reflexivity. Qed.

Example scenario_element_after_class :
  cssSelectorBuilder.class "a" cssSelectorBuilder.self
    ≫= cssSelectorBuilder.element "div" = Throw order_message.
Proof. reflexivity. Qed.

Example scenario_store_chain :
  Store.observe
    (Store.chain [(m_id, "main"); (m_class, "container"); (m_class, "editable")]
       Store.self Store.initial)
  = Normal (Some [fragment_of m_id "main"; fragment_of m_class "container";
                  fragment_of m_class "editable"]).
Proof. vm_compute. reflexivity. Qed.

(** * Further properties of the builder *)

Lemma constructed_fragments (this : object) :
  constructed this → ∃ calls, selectors this = fragments calls.
Proof.
  induction 1 as [|m v this this' _ [calls IH] (-> & _)%call_Normal].
  - by exists [].
  - exists (calls ++ [(m, v)]). simpl. rewrite IH.
    unfold fragments. by rewrite fmap_snoc.
Qed.

Lemma chain_constructed (calls : list (method * string)) (this this' : object) :
  constructed this →
  cssSelectorBuilder.chain calls this = Normal this' →
  constructed this'.
Proof.
  revert this. induction calls as [|[m v] calls IH]; intros this Hthis.
  - by intros [= <-].
  - rewrite chain_cons.
    destruct (cssSelectorBuilder.call m v this) as [next|] eqn:Hcall; [| done].
    apply IH. by apply (constructed_call m v this).
Qed.

Lemma fragments_checked (calls : list (method * string)) :
  nondecreasing (fragments calls) →
  Sorted Z.le (0 :: (order <$> fragments calls)).
Proof.
  intros Hsorted. constructor; [done |].
  destruct calls as [|[m v] calls]; constructor. apply rank_positive.
Qed.

(** X1: a sequence of calls from the root builds a selector exactly when
    its ranks never step down and no singleton kind is called twice; the
    selector then holds the fragments of the calls. *)
Theorem chain_builds_iff (calls : list (method * string)) :
  (∃ this, cssSelectorBuilder.chain calls cssSelectorBuilder.self = Normal this)
  ↔ nondecreasing (fragments calls) ∧ at_most_once (fragments calls).
Proof.
  split.
  - intros [this Hchain].
    pose proof (chain_constructed _ _ _ constructed_self Hchain)
      as Hinv%constructed_invariant.
    apply chain_selectors in Hchain. simpl in Hchain.
    destruct Hinv as [Hsorted Honce]. by rewrite Hchain in Hsorted, Honce.
  - intros [Hsorted%fragments_checked Honce].
    eexists. by apply (chain_succeeds calls cssSelectorBuilder.self).
Qed.


(** X3: on a constructed selector, [element] succeeds exactly when the
    selector has no fragment yet. *)
Theorem element_only_first (v : string) (this : object) :
  constructed this →
  (∃ this', cssSelectorBuilder.element v this = Normal this')
  ↔ selectors this = [].
Proof.
  intros [calls Hcalls]%constructed_fragments. split.
  - intros [this' (_ & Hfresh & Hsorted)%(call_Normal m_element)].
    destruct calls as [|[m v'] calls]; [done |].
    destruct Hfresh. split; [done |].
    unfold has_kind. rewrite Hcalls in Hsorted |- *.
    apply Sorted_inv in Hsorted as [Hsorted _].
    apply Sorted_StronglySorted in Hsorted; [| apply _].
    simpl in Hsorted. apply StronglySorted_inv in Hsorted as [_ Hle].
    rewrite fmap_app, Forall_app in Hle. destruct Hle as [_ Hle].
    apply Forall_inv in Hle. simpl in Hle.
    assert (m = m_element) as -> by (destruct m; simpl in Hle; (done || lia)).
    apply list_elem_of_here.
  - intros Hnil. destruct this as [els]. simpl in Hnil. subst els.
    by eexists.
Qed.

Lemma element_only_first_witness :
  constructed cssSelectorBuilder.self
  ∧ ∃ this', cssSelectorBuilder.element "div" cssSelectorBuilder.self
             = Normal this'.
Proof.
  split; [constructor |].
  apply (element_only_first "div" cssSelectorBuilder.self);
    [constructor | reflexivity].
Defined.

(** X4: a pseudo-element ends a selector: once the last fragment of a
    constructed selector is a pseudo-element, every call throws, the
    uniqueness error for a singleton kind already present (a second
    [pseudoElement] among them) and the order error otherwise. *)
Theorem pseudoElement_is_last (m : method) (v : string) (this : object)
    (prev : fragment) :
  constructed this →
  last (selectors this) = Some prev →
  type prev = "pseudoElement" →
  cssSelectorBuilder.call m v this
  = Throw (if decide (singleton m = true ∧ has_kind m this)
           then unique_message else order_message).
Proof.
  intros Hthis Hlast Htype.
  assert (order prev = 6) as Horder.
  { destruct (constructed_fragments this Hthis) as [calls Hcalls].
    apply last_Some_elem_of in Hlast as Hin.
    rewrite Hcalls in Hin. apply list_elem_of_fmap in Hin as ([m' v'] & -> & _).
    simpl in Htype.
    change "pseudoElement" with (type_of m_pseudoElement) in Htype.
    by apply (inj type_of) in Htype as ->. }
  rewrite call_spec. case_decide as Hdup; [done |].
  rewrite decide_False; [done |].
  intros [_ Hle]%Sorted_orders_snoc.
  specialize (Hle _ (last_orders _ _ Hlast)). simpl in Hle.
  destruct Hdup. unfold has_kind.
  assert (m = m_pseudoElement) as ->
    by (destruct m; simpl in Hle; (done || lia)).
  split; [done |]. apply list_elem_of_fmap. exists prev.
  split; [done | by apply last_Some_elem_of].
Qed.

Lemma pseudoElement_is_last_witness :
  let this := Object [fragment_of m_element "p"; fragment_of m_pseudoElement "after"] in
  constructed this
  ∧ cssSelectorBuilder.call m_class "c" this = Throw order_message.
Proof.
  assert (constructed (Object [fragment_of m_element "p";
                               fragment_of m_pseudoElement "after"])) as Hc.
  { apply (constructed_call m_pseudoElement "after"
             (Object [fragment_of m_element "p"])); [| reflexivity].
    apply (constructed_call m_element "p" cssSelectorBuilder.self);
      [constructor | reflexivity]. }
  split; [exact Hc |].
  apply (pseudoElement_is_last m_class "c" _ (fragment_of m_pseudoElement "after")
           Hc); reflexivity.
Defined.

(** X5: nesting [combine] to the left or to the right gives the same
    text. *)
Theorem combine_assoc {A B C : Type} `{!Stringifiable A, !Stringifiable B,
    !Stringifiable C} (a : A) (b : B) (c : C) (c1 c2 : string) :
  stringify_of
    (cssSelectorBuilder.combine (cssSelectorBuilder.combine a c1 b) c2 c)
  = stringify_of
      (cssSelectorBuilder.combine a c1 (cssSelectorBuilder.combine b c2 c)).
Proof.
  cbv [stringify_of combined_stringifiable cssSelectorBuilder.combine
       combined_stringify].
  by rewrite !append_assoc.
Qed.

(** X18: a successful call, on any receiver, adds the formatted text of its
    fragment at the end of the text of the receiver. *)
Theorem stringify_call (m : method) (v : string) (this this' : object) :
  cssSelectorBuilder.call m v this = Normal this' →
  cssSelectorBuilder.stringify this'
  = cssSelectorBuilder.stringify this +:+ spec_text m v.
Proof.
  intros (-> & _)%call_Normal. unfold cssSelectorBuilder.stringify.
  cbn [selectors]. rewrite foldl_snoc. reflexivity.
Qed.

Lemma stringify_call_witness :
  cssSelectorBuilder.call m_class "c" (Object [fragment_of m_id "main"])
  = Normal (Object [fragment_of m_id "main"; fragment_of m_class "c"])
  ∧ cssSelectorBuilder.stringify
      (Object [fragment_of m_id "main"; fragment_of m_class "c"])
    = "#main.c".
Proof.
  split; [reflexivity |].
  apply (stringify_call m_class "c" (Object [fragment_of m_id "main"])).
  reflexivity.
Defined.

(** * sellTickets *)

(** One step of the callback, by cases. *)
Ltac sell_cases :=
  unfold sell, truthy; cbn [cach25 cach50];
  repeat (case_bool_decide; cbn [negb andb]); try (reflexivity || lia).

Lemma sell_every_cons (c : Change) (payment : Z) (queue : list Z) :
  sell_every c (payment :: queue)
  = if (sell c payment).1 then sell_every (sell c payment).2 queue
    else (false, (sell c payment).2).
Proof. simpl. by destruct (sell c payment) as [[] c']. Qed.

Lemma sell_every_app (c : Change) (queue1 queue2 : list Z) :
  sell_every c (queue1 ++ queue2)
  = if (sell_every c queue1).1
    then sell_every (sell_every c queue1).2 queue2
    else (false, (sell_every c queue1).2).
Proof.
  revert c. induction queue1 as [|p queue1 IH]; intros c; [done |].
  rewrite <- app_comm_cons, !sell_every_cons.
  destruct (sell c p).1; [apply IH | done].
Qed.

(** The greedy choice never does worse than any way of giving change that
    starts from the same amount with no more bills of 25. *)
Lemma sell_every_greedy (n25 n50 : Z) (queue : list Z) :
  can_sell n25 n50 queue →
  ∀ c : Change,
    0 ≤ n25 → 0 ≤ n50 → 0 ≤ cach50 c ≤ n50 →
    cach25 c + 2 * cach50 c = n25 + 2 * n50 →
    (sell_every c queue).1 = true.
Proof.
  induction 1 as [a b | a b q _ IH | a b q Ha _ IH | a b q Ha Hb _ IH
                 | a b q Ha _ IH]; intros [x y] H25 H50 Hy Hsum;
    cbn [cach25 cach50] in *; [done | rewrite sell_every_cons ..].
  - assert (sell (Build_Change x y) 25 = (true, Build_Change (x + 1) y))
      as -> by sell_cases.
    apply IH; cbn [cach25 cach50 fst snd]; lia.
  - assert (sell (Build_Change x y) 50 = (true, Build_Change (x - 1) (y + 1)))
      as -> by sell_cases.
    apply IH; cbn [cach25 cach50 fst snd]; lia.
  - destruct (decide (y = 0)) as [-> | Hy0].
    + assert (sell (Build_Change x 0) 100 = (true, Build_Change (x - 3) 0))
        as -> by sell_cases.
      apply IH; cbn [cach25 cach50 fst snd]; lia.
    + assert (sell (Build_Change x y) 100
              = (true, Build_Change (x - 1) (y - 1))) as -> by sell_cases.
      apply IH; cbn [cach25 cach50 fst snd]; lia.
  - destruct (decide (y = 0)) as [-> | Hy0].
    + assert (sell (Build_Change x 0) 100 = (true, Build_Change (x - 3) 0))
        as -> by sell_cases.
      apply IH; cbn [cach25 cach50 fst snd]; lia.
    + assert (sell (Build_Change x y) 100
              = (true, Build_Change (x - 1) (y - 1))) as -> by sell_cases.
      apply IH; cbn [cach25 cach50 fst snd]; lia.
Qed.

Lemma sell_every_sound (queue : list Z) (c : Change) :
  Forall bill queue →
  0 ≤ cach25 c → 0 ≤ cach50 c →
  (sell_every c queue).1 = true →
  can_sell (cach25 c) (cach50 c) queue.
Proof.
  revert c. induction queue as [|p queue IH]; intros [x y] Hbills H25 H50;
    cbn [cach25 cach50] in *; [constructor |].
  apply Forall_cons in Hbills as [Hp Hbills]. rewrite sell_every_cons.
  unfold bill in Hp. rewrite !elem_of_cons, elem_of_nil in Hp.
  destruct Hp as [-> | [-> | [-> | []]]].
  - assert (sell (Build_Change x y) 25 = (true, Build_Change (x + 1) y))
      as -> by sell_cases.
    cbn [fst snd]. intros Hrest%IH; cbn [cach25 cach50] in *; try lia; try done.
    by constructor.
  - destruct (decide (x = 0)) as [-> | Hx].
    + by assert (sell (Build_Change 0 y) 50 = (false, Build_Change 0 y))
        as -> by sell_cases.
    + assert (sell (Build_Change x y) 50 = (true, Build_Change (x - 1) (y + 1)))
        as -> by sell_cases.
      cbn [fst snd]. intros Hrest%IH; cbn [cach25 cach50] in *;
        try lia; try done.
      apply can_sell_50; [lia | done].
  - destruct (decide (y = 0 ∨ x = 0)) as [H0 | H0].
    + destruct (decide (2 < x)) as [Hx | Hx].
      * assert (sell (Build_Change x y) 100 = (true, Build_Change (x - 3) y))
          as -> by sell_cases.
        cbn [fst snd]. intros Hrest%IH; cbn [cach25 cach50] in *;
          try lia; try done.
        apply can_sell_100_25_25_25; [lia | done].
      * by assert (sell (Build_Change x y) 100 = (false, Build_Change x y))
          as -> by sell_cases.
    + assert (sell (Build_Change x y) 100
              = (true, Build_Change (x - 1) (y - 1))) as -> by sell_cases.
      cbn [fst snd]. intros Hrest%IH; cbn [cach25 cach50] in *;
        try lia; try done.
      apply can_sell_100_50_25; [lia | lia | done].
Qed.

Lemma length_filter_cons {A : Type} (P : A → Prop) `{!∀ x, Decision (P x)}
    (x : A) (l : list A) :
  length (filter P (x :: l))
  = ((if decide (P x) then 1 else 0) + length (filter P l))%nat.
Proof.
  case_decide; [by rewrite filter_cons_True | by rewrite filter_cons_False].
Qed.

Lemma bill_iff (payment : Z) :
  bill payment ↔ payment = 25 ∨ payment = 50 ∨ payment = 100.
Proof. unfold bill. rewrite !elem_of_cons, elem_of_nil. tauto. Qed.

Lemma sell_other (c : Change) (payment : Z) :
  ¬ bill payment → sell c payment = (true, c).
Proof. rewrite bill_iff. intros Hp. sell_cases. Qed.

(** What an accepted payment does to the bills kept for change, counted in
    units of 25. *)
Lemma sell_step (c c' : Change) (payment : Z) :
  sell c payment = (true, c') →
  0 ≤ cach25 c → 0 ≤ cach50 c →
  0 ≤ cach25 c' ∧ 0 ≤ cach50 c'
  ∧ cach25 c' + 2 * cach50 c' + (if decide (payment = 100) then 4 else 0)
    = cach25 c + 2 * cach50 c + (if decide (bill payment) then 1 else 0).
Proof.
  destruct c as [x y]. unfold sell, truthy. cbn [cach25 cach50].
  destruct (decide (bill payment)) as [Hb | Hb]; rewrite bill_iff in Hb;
    repeat (case_bool_decide; cbn [negb andb]);
    intros [= <-] ??; cbn [cach25 cach50];
    repeat case_decide; lia.
Qed.

(** X6: on a queue of bills of 25, 50 and 100, [sellTickets] answers [true]
    exactly when there is a way to give every customer the change; taking a
    50 and a 25 for a bill of 100 before three 25 loses nothing. *)
Theorem sellTickets_iff (queue : list Z) :
  Forall bill queue →
  sellTickets queue = true ↔ can_sell 0 0 queue.
Proof.
  intros Hbills. unfold sellTickets. split.
  - by apply (sell_every_sound queue (Build_Change 0 0)).
  - intros Hcan.
    apply (sell_every_greedy 0 0 queue Hcan (Build_Change 0 0));
      cbn [cach25 cach50]; lia.
Qed.

Lemma sellTickets_iff_witness :
  Forall bill [25; 25; 50; 100; 25; 25; 25; 100]
  ∧ sellTickets [25; 25; 50; 100; 25; 25; 25; 100] = true
  ∧ can_sell 0 0 [25; 25; 50; 100; 25; 25; 25; 100].
Proof.
  assert (Forall bill [25; 25; 50; 100; 25; 25; 25; 100]) as Hbills
    by by_evaluation.
  split; [exact Hbills |]. split; [reflexivity |].
  apply (sellTickets_iff _ Hbills). reflexivity.
Defined.

(** X7: a payment that is not 25, 50 or 100 is accepted and changes
    nothing: the answer is the answer for the queue without such
    payments. *)
Theorem sellTickets_ignores_other_payments (queue : list Z) :
  sellTickets (filter bill queue) = sellTickets queue.
Proof.
  unfold sellTickets. generalize (Build_Change 0 0).
  induction queue as [|p queue IH]; intros c; [done |].
  destruct (decide (bill p)) as [Hp | Hp].
  - rewrite filter_cons_True by done. rewrite !sell_every_cons.
    destruct (sell c p).1; [apply IH | done].
  - rewrite filter_cons_False by done. rewrite sell_every_cons.
    rewrite sell_other by done. apply IH.
Qed.

(** X8: customers are served in order, so if the whole queue can be
    served, every initial part of it can: a refusal is never undone by who
    comes later. *)
Theorem sellTickets_prefix (queue1 queue2 : list Z) :
  sellTickets (queue1 ++ queue2) = true → sellTickets queue1 = true.
Proof.
  unfold sellTickets. rewrite sell_every_app.
  by destruct (sell_every _ queue1).1.
Qed.

Lemma sellTickets_prefix_witness :
  sellTickets ([25; 25] ++ [50; 100]) = true ∧ sellTickets [25; 25] = true.
Proof.
  split; [reflexivity |].
  apply (sellTickets_prefix [25; 25] [50; 100]). reflexivity.
Defined.

(** X9: while the queue is served, the counts of bills of 25 and 50 never
    go below zero, and the seller keeps exactly the price of the tickets
    sold: the bills of 25 and 50 left, with the bills of 100 taken, are worth
    25 for each customer who paid with a bill. *)
Theorem sellTickets_exact_change (queue : list Z) (c : Change) :
  sell_every {| cach25 := 0; cach50 := 0 |} queue = (true, c) →
  0 ≤ cach25 c ∧ 0 ≤ cach50 c
  ∧ 25 * cach25 c + 50 * cach50 c
      + 100 * Z.of_nat (length (filter (λ p, p = 100) queue))
    = 25 * Z.of_nat (length (filter bill queue)).
Proof.
  assert (∀ q c0 c1,
            sell_every c0 q = (true, c1) →
            0 ≤ cach25 c0 → 0 ≤ cach50 c0 →
            0 ≤ cach25 c1 ∧ 0 ≤ cach50 c1
            ∧ cach25 c1 + 2 * cach50 c1
                + 4 * Z.of_nat (length (filter (λ p, p = 100) q))
              = cach25 c0 + 2 * cach50 c0
                + Z.of_nat (length (filter bill q))) as Hgen.
  { induction q as [|p q IH]; intros c0 c1.
    - intros [= <-] ??. simpl. lia.
    - rewrite sell_every_cons.
      destruct (sell c0 p) as [[] c2] eqn:Hsell; cbn [fst snd]; [| done].
      intros Hrest H25 H50.
      destruct (sell_step _ _ _ Hsell H25 H50) as (H25' & H50' & Hstep).
      destruct (IH _ _ Hrest H25' H50') as (? & ? & Hsum).
      split; [done |]. split; [done |].
      rewrite !length_filter_cons. repeat case_decide; lia. }
  intros Hrun.
  destruct (Hgen queue _ _ Hrun) as (? & ? & Hsum); cbn [cach25 cach50];
    [lia | lia |].
  cbn [cach25 cach50] in Hsum. split; [done |]. split; [done | lia].
Qed.

Lemma sellTickets_exact_change_witness :
  sell_every {| cach25 := 0; cach50 := 0 |} [25; 25; 50; 100]
  = (true, {| cach25 := 0; cach50 := 0 |})
  ∧ 25 * 0 + 50 * 0 + 100 * Z.of_nat (length (filter (λ p, p = 100) [25; 25; 50; 100]))
    = 25 * Z.of_nat (length (filter bill [25; 25; 50; 100])).
Proof.
  split; [reflexivity |].
  apply (sellTickets_exact_change [25; 25; 50; 100]
           {| cach25 := 0; cach50 := 0 |}).
  reflexivity.
Defined.

(** * group *)

Section group_properties.
Context {A K V : Type} `{!EqDecision K}.
Implicit Types (keys : list K) (g : K → list V).

Lemma first_seen_elem (l : list K) (k : K) : k ∈ first_seen l ↔ k ∈ l.
Proof.
  induction l as [|x l IH]; [done |]. simpl.
  rewrite !elem_of_cons, list_elem_of_filter, IH.
  destruct (decide (k = x)); tauto.
Qed.

Lemma first_seen_NoDup (l : list K) : NoDup (first_seen l).
Proof.
  induction l as [|x l IH]; simpl; constructor.
  - rewrite list_elem_of_filter. by intros [? _].
  - by apply NoDup_filter.
Qed.

Lemma first_seen_snoc (l : list K) (k : K) :
  first_seen (l ++ [k])
  = if decide (k ∈ l) then first_seen l else first_seen l ++ [k].
Proof.
  induction l as [|x l IH]; [done |]. simpl. rewrite IH.
  destruct (decide (k ∈ l)) as [Hin | Hnotin].
  - by rewrite decide_True by (by apply list_elem_of_further).
  - destruct (decide (k = x)) as [-> | Hne].
    + rewrite decide_True by apply list_elem_of_here.
      rewrite filter_app. simpl.
      rewrite filter_cons_False by (by intros []). by rewrite app_nil_r.
    + rewrite decide_False by (rewrite elem_of_cons; tauto).
      rewrite filter_app. simpl. by rewrite filter_cons_True.
Qed.

Lemma Map_get_entries keys g (k : K) :
  Map_get ((λ k', (k', g k')) <$> keys) k
  = if decide (k ∈ keys) then Some (g k) else None.
Proof.
  induction keys as [|x keys IH]; [done |]. rewrite fmap_cons. cbn [Map_get].
  destruct (decide (x = k)) as [-> | Hne].
  - by rewrite decide_True by apply list_elem_of_here.
  - rewrite IH. destruct (decide (k ∈ keys)).
    + rewrite decide_True; [done | by apply list_elem_of_further].
    + rewrite decide_False; [done |]. rewrite elem_of_cons.
      by intros [-> | ?].
Qed.

Lemma Map_set_entries_new keys g (k : K) (value : list V) :
  k ∉ keys →
  Map_set ((λ k', (k', g k')) <$> keys) k value
  = ((λ k', (k', g k')) <$> keys) ++ [(k, value)].
Proof.
  induction keys as [|x keys IH]; [done |]. rewrite not_elem_of_cons.
  intros [Hne Hnotin]. rewrite fmap_cons. cbn [Map_set].
  rewrite decide_False by done. by rewrite IH.
Qed.

Lemma Map_set_entries_old keys g (k : K) (value : list V) :
  NoDup keys → k ∈ keys →
  Map_set ((λ k', (k', g k')) <$> keys) k value
  = (λ k', (k', if decide (k' = k) then value else g k')) <$> keys.
Proof.
  induction keys as [|x keys IH]; [by intros _ ?%elem_of_nil |].
  intros [Hx Hkeys]%NoDup_cons Hin. rewrite !fmap_cons. cbn [Map_set].
  destruct (decide (x = k)) as [-> | Hne].
  - f_equal. apply list_fmap_ext. intros _ k' Hk'%list_elem_of_lookup_2.
    rewrite decide_False; [done | by intros ->].
  - f_equal. apply IH; [done |].
    apply elem_of_cons in Hin as [-> | Hin]; done.
Qed.
Lemma entries_keys keys g : ((λ k, (k, g k)) <$> keys).*1 = keys.
Proof.
  rewrite <- list_fmap_compose. rewrite <- (list_fmap_id keys) at 2.
  by apply list_fmap_ext.
Qed.

Lemma group_run (array : list A) (keySelector : A → K)
    (valueSelector : A → V) :
  group array keySelector valueSelector
  = Normal
      ((λ k, (k, valueSelector
                   <$> filter (λ item, keySelector item = k) array))
         <$> first_seen (keySelector <$> array)).
Proof.
  induction array as [|item array IH] using rev_ind; [done |].
  unfold group in *. rewrite foldl_snoc, IH. clear IH.
  cbn [mbind completion_bind].
  set (k := keySelector item).
  set (keys := first_seen (keySelector <$> array)).
  rewrite fmap_snoc. fold k. rewrite first_seen_snoc.
  unfold group_step, Map_has. fold k. rewrite entries_keys.
  assert (∀ k', k' ≠ k →
            filter (λ item, keySelector item = k') (array ++ [item])
            = filter (λ item, keySelector item = k') array) as Hother.
  { intros k' Hk'. rewrite filter_app. simpl.
    rewrite filter_cons_False by (by intros <-). by rewrite app_nil_r. }
  assert (filter (λ item, keySelector item = k) (array ++ [item])
          = filter (λ item, keySelector item = k) array ++ [item]) as Hsame.
  { rewrite filter_app. simpl. by rewrite filter_cons_True. }
  destruct (decide (k ∈ keySelector <$> array)) as [Hin | Hnotin].
  - assert (k ∈ keys) as Hkeys by (by apply first_seen_elem).
    rewrite bool_decide_eq_true_2 by done.
    unfold Map_get_push. rewrite Map_get_entries, decide_True by done.
    rewrite Map_set_entries_old by (done || apply first_seen_NoDup).
    f_equal. apply list_fmap_ext. intros _ k' _.
    case_decide as Hk'.
    + subst k'. by rewrite Hsame, fmap_snoc.
    + by rewrite Hother.
  - assert (k ∉ keys) as Hkeys by (unfold keys; by rewrite first_seen_elem).
    rewrite bool_decide_eq_false_2 by done.
    rewrite Map_set_entries_new by done.
    unfold Map_get_push.
    assert (∀ (m : list (K * list V)) value,
              k ∉ m.*1 → Map_get (m ++ [(k, value)]) k = Some value) as Hget.
    { induction m as [|[k0 v0] m IHm]; intros value.
      - intros _. simpl. by rewrite decide_True.
      - rewrite fmap_cons, not_elem_of_cons. intros [Hne Hm]. simpl.
        rewrite decide_False by done. by apply IHm. }
    assert (∀ (m : list (K * list V)) old value,
              k ∉ m.*1 →
              Map_set (m ++ [(k, old)]) k value = m ++ [(k, value)]) as Hset.
    { induction m as [|[k0 v0] m IHm]; intros old value.
      - intros _. simpl. by rewrite decide_True.
      - rewrite fmap_cons, not_elem_of_cons. intros [Hne Hm]. simpl.
        rewrite decide_False by done. by rewrite IHm. }
    rewrite Hget, Hset by (by rewrite entries_keys).
    f_equal. rewrite fmap_app. f_equal.
    + apply list_fmap_ext. intros _ k' Hk'%list_elem_of_lookup_2.
      rewrite Hother; [done |]. by intros ->.
    + simpl. rewrite Hsame, fmap_snoc.
      assert (filter (λ item, keySelector item = k) array = []) as ->; [| done].
      destruct (filter _ array) as [|y rest] eqn:Hfilter; [done |].
      assert (y ∈ filter (λ item, keySelector item = k) array)
        as [Hy Hin]%list_elem_of_filter
        by (rewrite Hfilter; apply list_elem_of_here).
      destruct Hnotin. apply list_elem_of_fmap. by exists y.
Qed.


Lemma concat_split_key {B : Type} (h : K → list B) keys (k : K) :
  NoDup keys → (k ∉ keys → h k = []) →
  concat (h <$> keys) ≡ₚ h k ++ concat (h <$> filter (λ k', k' ≠ k) keys).
Proof.
  induction keys as [|y keys IH]; intros Hnodup Hempty.
  - simpl. rewrite Hempty; [done | apply not_elem_of_nil].
  - apply NoDup_cons in Hnodup as [Hy Hnodup]. rewrite fmap_cons. simpl.
    destruct (decide (y = k)) as [-> | Hne].
    + rewrite filter_cons_False by (by intros []).
      assert (filter (λ k', k' ≠ k) keys = keys) as ->; [| done].
      clear IH Hempty Hnodup. induction keys as [|z keys IH]; [done |].
      apply not_elem_of_cons in Hy as [Hz Hy].
      rewrite filter_cons_True by done. by rewrite IH.
    + rewrite filter_cons_True by done. rewrite fmap_cons. simpl.
      rewrite IH; [apply Permutation_app_swap_app | done |].
      intros Hk. apply Hempty. rewrite not_elem_of_cons. by split.
Qed.

Lemma partition_by_key (keySelector : A → K) (l : list A) :
  concat ((λ k, filter (λ item, keySelector item = k) l)
            <$> first_seen (keySelector <$> l))
  ≡ₚ l.
Proof.
  induction l as [|x l IH]; [done |].
  rewrite fmap_cons. cbn [first_seen]. rewrite fmap_cons. cbn [concat].
  rewrite filter_cons_True by done. simpl. constructor.
  rewrite <- IH at 3.
  rewrite (concat_split_key
             (λ k, filter (λ item, keySelector item = k) l)
             (first_seen (keySelector <$> l)) (keySelector x)).
  - apply Permutation_app_head.
    match goal with |- ?a ≡ₚ ?b => assert (a = b) as ->; [| done] end.
    f_equal. apply list_fmap_ext. intros _ k [Hk _]%list_elem_of_lookup_2%list_elem_of_filter.
    by rewrite filter_cons_False by (by intros <-).
  - apply first_seen_NoDup.
  - rewrite first_seen_elem. intros Hnotin.
    destruct (filter _ l) as [|y rest] eqn:Hfilter; [done |].
    assert (y ∈ filter (λ item, keySelector item = keySelector x) l)
      as [Hy Hin]%list_elem_of_filter
      by (rewrite Hfilter; apply list_elem_of_here).
    destruct Hnotin. apply list_elem_of_fmap. by exists y.
Qed.

End group_properties.

(** * Plain objects *)

Section objects_properties.
Context {value : Type} `{!EqDecision value}.
Variable undefined : value.
Variable prototype : gmap string value.
Variable accessor : string → bool.
Implicit Types (obj : gmap string value) (key : string).

Lemma Object_keys_length obj : length (Object_keys obj) = size obj.
Proof. unfold Object_keys. by rewrite length_fmap, length_map_to_list. Qed.

Lemma Object_keys_elem obj key :
  key ∈ Object_keys obj ↔ is_Some (obj !! key).
Proof.
  unfold Object_keys. rewrite list_elem_of_fmap. split.
  - intros ([k v] & -> & Hin%elem_of_map_to_list). by exists v.
  - intros [v Hv]. exists (key, v). by rewrite elem_of_map_to_list.
Qed.


(** X13: a property of [obj1] whose value is [undefined] passes for a
    missing one: two objects with one property each, under different names,
    compare as equal when the first value is [undefined]. *)
Theorem compareObjects_undefined (key1 key2 : string) (v : value) :
  key1 ≠ key2 → prototype !! key1 = None →
  compareObjects undefined prototype {[ key1 := undefined ]} {[ key2 := v ]}
  = true
  ∧ ({[ key1 := undefined ]} : gmap string value) ≠ {[ key2 := v ]}.
Proof.
  intros Hne Hproto. split.
  - unfold compareObjects, Object_keys.
    rewrite !map_to_list_singleton. cbn [fmap list_fmap length fst].
    rewrite bool_decide_eq_true_2 by done. cbn [negb forallb].
    unfold get_property.
    rewrite lookup_singleton_eq, lookup_singleton_ne, Hproto by done.
    by rewrite bool_decide_eq_true_2.
  - intros Heq. apply (f_equal (.!! key1)) in Heq.
    by rewrite lookup_singleton_eq, lookup_singleton_ne in Heq.
Qed.

Lemma remove_keys_lookup (obj : gmap string value)
    (keys : list string + string) (key : string) :
  removeProperties prototype obj keys !! key
  = if decide (key ∈ match keys with inl array => array | inr k => [k] end)
    then None else obj !! key.
Proof.
  unfold removeProperties.
  generalize (match keys with inl array => array | inr k => [k] end).
  intros newKeys. revert obj.
  induction newKeys as [|k newKeys IH]; intros obj; [done |].
  cbn [foldl]. rewrite IH.
  assert ((if in_object prototype k obj then delete k obj else obj)
          = delete k obj) as ->.
  { unfold in_object. case_bool_decide as Hin; [done |].
    symmetry. apply delete_id.
    destruct (obj !! k) eqn:Hk; [| done]. destruct Hin. left. by eexists. }
  destruct (decide (key ∈ newKeys)) as [Hin | Hnotin].
  - by rewrite decide_True by (by apply list_elem_of_further).
  - destruct (decide (key = k)) as [-> | Hne].
    + rewrite decide_True by apply list_elem_of_here. apply lookup_delete_eq.
    + rewrite decide_False by (rewrite elem_of_cons; tauto).
      by apply lookup_delete_ne.
Qed.

(** X14: [removeProperties] returns the object without the given keys:
    they are gone, whether or not they were there, and every other
    property is as in [obj]; one key that is not an array counts as the
    array of that key. *)
Theorem removeProperties_lookup (obj : gmap string value)
    (keys : list string + string) (key : string) :
  removeProperties prototype obj keys !! key
  = if decide (key ∈ match keys with inl array => array | inr k => [k] end)
    then None else obj !! key.
Proof. apply remove_keys_lookup. Qed.

(** X15: removing all the keys of an object leaves an empty object, and an
    object is empty for [isEmptyObject] exactly when it has no property. *)
Theorem removeProperties_all_is_empty (obj : gmap string value) :
  isEmptyObject (removeProperties prototype obj (inl (Object_keys obj)))
  = true
  ∧ (isEmptyObject obj = true ↔ obj = ∅).
Proof.
  assert (∀ o : gmap string value, isEmptyObject o = true ↔ o = ∅) as Hempty.
  { intros o. unfold isEmptyObject. rewrite Object_keys_length.
    rewrite bool_decide_eq_true. apply map_size_empty_iff. }
  split; [| apply Hempty].
  apply Hempty, map_eq. intros key.
  rewrite remove_keys_lookup, lookup_empty.
  case_decide as Hkey; [done |].
  rewrite Object_keys_elem in Hkey.
  by destruct (obj !! key); [destruct Hkey |].
Qed.

Variable add : value → value → value.

(** The own property [key] after [merge_entry] on the entry [(key, v)]. *)
Lemma merge_entry_same (m : gmap string value) (key : string) (v : value) :
  merge_entry undefined prototype accessor add m (key, v) !! key
  = match m !! key, prototype !! key with
    | Some old, _ => Some (add old v)
    | None, Some inherited =>
        if accessor key then None else Some (add inherited v)
    | None, None => Some v
    end.
Proof.
  unfold merge_entry, in_object, set_property, get_property.
  destruct (m !! key) as [old|] eqn:Hm.
  - rewrite bool_decide_eq_true_2 by (left; by eexists).
    rewrite bool_decide_eq_false_2 by (by intros [? _]).
    cbn [andb]. apply lookup_insert_eq.
  - destruct (prototype !! key) as [inherited|] eqn:Hp.
    + rewrite bool_decide_eq_true_2 by (right; by eexists).
      rewrite bool_decide_eq_true_2 by (split; [done | by eexists]).
      cbn [andb default]. destruct (accessor key); [done |].
      apply lookup_insert_eq.
    + rewrite bool_decide_eq_false_2 by (by intros [[] | []]).
      rewrite bool_decide_eq_false_2 by (by intros [_ []]).
      cbn [andb]. apply lookup_insert_eq.
Qed.

Lemma merge_entry_other (m : gmap string value) (k key : string) (v : value) :
  k ≠ key →
  merge_entry undefined prototype accessor add m (k, v) !! key = m !! key.
Proof.
  intros Hne. unfold merge_entry, set_property.
  by repeat (case_match; [| try done]); rewrite ?lookup_insert_ne by done.
Qed.

(** What the [forEach] over the entries of one object leaves under a
    key. *)
Lemma merge_entries_lookup (entries : list (string * value))
    (m : gmap string value) (key : string) :
  NoDup entries.*1 →
  foldl (merge_entry undefined prototype accessor add) m entries !! key
  = match (list_to_map entries : gmap string value) !! key with
    | Some v => merge_entry undefined prototype accessor add m (key, v) !! key
    | None => m !! key
    end.
Proof.
  revert m. induction entries as [|[k v] entries IH]; intros m; [done |].
  rewrite fmap_cons. intros [Hk Hnodup]%NoDup_cons.
  cbn [foldl list_to_map foldr]. rewrite IH by done.
  destruct (decide (k = key)) as [-> | Hne].
  - rewrite lookup_insert_eq.
    by rewrite (not_elem_of_list_to_map_1 entries key) by done.
  - rewrite lookup_insert_ne by done.
    destruct (list_to_map entries !! key) as [v'|];
      [| by apply merge_entry_other].
    rewrite !merge_entry_same. by rewrite merge_entry_other.
Qed.

Lemma mergeObjects_run (objects : list (gmap string value)) (key : string) :
  mergeObjects undefined prototype accessor add objects !! key
  = merged_value prototype accessor add key
      (omap (λ obj, obj !! key) objects).
Proof.
  induction objects as [|obj objects IH] using rev_ind.
  - unfold merged_value. cbn. rewrite lookup_empty.
    by destruct (prototype !! key).
  - unfold mergeObjects in *. rewrite foldl_snoc. cbv zeta in IH |- *.
    unfold Object_entries in IH |- *. rewrite merge_entries_lookup
      by apply NoDup_fst_map_to_list.
    rewrite list_to_map_to_list, omap_app. cbn [omap list_omap].
    destruct (obj !! key) as [v|] eqn:Hobj.
    + rewrite merge_entry_same, IH. unfold merged_value. clear IH.
      destruct (omap (λ o : gmap string value, o !! key) objects)
        as [|v0 vs]; cbn [app].
      * destruct (prototype !! key); [by destruct (accessor key) | done].
      * destruct (prototype !! key) as [inherited|].
        -- destruct (accessor key); [done |].
           by rewrite <- (foldl_snoc add inherited (v0 :: vs)).
        -- by rewrite foldl_snoc.
    + by rewrite app_nil_r.
Qed.

(** X16: under a key, [mergeObjects] leaves the values that the objects
    give to the key, added up from left to right in the order of the
    objects, and nothing if no object has the key.  When
    [Object.prototype] has a property of that name, the sum starts from the
    inherited value, since [key in newMerged] is true from the first
    object on; and nothing is kept if that property is an accessor. *)
Theorem mergeObjects_lookup (objects : list (gmap string value))
    (key : string) :
  mergeObjects undefined prototype accessor add objects !! key
  = merged_value prototype accessor add key
      (omap (λ obj, obj !! key) objects).
Proof. apply mergeObjects_run. Qed.
End objects_properties.


Lemma compareObjects_undefined_witness :
  "a" ≠ "b" ∧ Object_prototype !! "a" = None
  ∧ compareObjects Undefined Object_prototype
      {[ "a" := Undefined ]} {[ "b" := Number 1 ]} = true.
Proof.
  split; [done |]. split; [reflexivity |].
  apply (compareObjects_undefined Undefined Object_prototype "a" "b" (Number 1));
    [done | reflexivity].
Defined.

(** * makeWord *)

Lemma array_set_length (word : list (option string)) (i : nat) (x : string) :
  length (array_set word i x) = (length word `max` S i)%nat.
Proof.
  unfold array_set. case_decide.
  - rewrite length_insert. lia.
  - rewrite !length_app, length_replicate. simpl. lia.
Qed.

Lemma array_set_lookup (word : list (option string)) (i j : nat) (x : string) :
  array_set word i x !! j
  = if decide (j = i) then Some (Some x)
    else if decide (j < length word)%nat then word !! j
    else if decide (j < i)%nat then Some None else None.
Proof.
  unfold array_set. destruct (decide (i < length word)%nat) as [Hi | Hi].
  - destruct (decide (j = i)) as [-> | Hne].
    + by apply list_lookup_insert_eq.
    + rewrite list_lookup_insert_ne by done.
      repeat case_decide; try done; try lia; apply lookup_ge_None_2; lia.
  - destruct (decide (j < length word)%nat) as [Hj | Hj].
    + rewrite decide_False by lia. by apply lookup_app_l.
    + rewrite lookup_app_r by lia.
      destruct (decide (j < i)%nat) as [Hji | Hji].
      * rewrite decide_False by lia. rewrite lookup_app_l
          by (rewrite length_replicate; lia).
        apply lookup_replicate_2. lia.
      * rewrite lookup_app_r by (rewrite length_replicate; lia).
        rewrite length_replicate. destruct (decide (j = i)) as [-> | Hne].
        -- by replace (i - length word - (i - length word))%nat with 0%nat by lia.
        -- apply lookup_ge_None_2. simpl. lia.
Qed.

(** The array while letters that agree with a word [w] are written into
    it: it never grows beyond [w], what it holds is what [w] holds, and the
    positions written stay filled. *)
Lemma writes_agree (w : list string) (letter : string) (positions : list nat)
    (word : list (option string)) :
  (∀ p, p ∈ positions → w !! p = Some letter) →
  (length word ≤ length w)%nat →
  (∀ p x, word !! p = Some (Some x) → w !! p = Some x) →
  let word' := foldl (λ word p, array_set word p letter) word positions in
  (length word' ≤ length w)%nat
  ∧ (∀ p x, word' !! p = Some (Some x) → w !! p = Some x)
  ∧ (∀ p x, word !! p = Some (Some x) → ∃ y, word' !! p = Some (Some y))
  ∧ (∀ p, p ∈ positions → ∃ y, word' !! p = Some (Some y)).
Proof.
  revert word. induction positions as [|i positions IH];
    intros word Hw Hlen Hword; cbn [foldl].
  - split; [done |]. split; [done |]. split; [eauto |].
    by intros p ?%elem_of_nil.
  - assert (w !! i = Some letter) as Hi by apply Hw, list_elem_of_here.
    pose proof (lookup_lt_Some _ _ _ Hi) as Hlt.
    assert (∀ p x, word !! p = Some (Some x) →
              ∃ y, array_set word i letter !! p = Some (Some y)) as Hkeep.
    { intros p x Hp. rewrite array_set_lookup.
      pose proof (lookup_lt_Some _ _ _ Hp).
      case_decide; [by eexists |]. rewrite decide_True by done. by eexists. }
    destruct (IH (array_set word i letter)) as (Hlen' & Hword' & Hkeep' & Hset).
    + intros p Hp. by apply Hw, list_elem_of_further.
    + rewrite array_set_length. lia.
    + intros p x. rewrite array_set_lookup.
      repeat case_decide; try done; [by intros [= <-]; subst p | apply Hword].
    + split; [done |]. split; [done |]. split.
      * intros p x [y Hy]%Hkeep. by apply Hkeep' in Hy.
      * intros p [-> | Hp]%elem_of_cons; [| by apply Hset].
        apply (Hkeep' i letter). rewrite array_set_lookup.
        by rewrite decide_True.
Qed.

Lemma entries_agree (w : list string) (entries : list (string * list nat))
    (word : list (option string)) :
  (∀ letter positions p,
     (letter, positions) ∈ entries → p ∈ positions → w !! p = Some letter) →
  (length word ≤ length w)%nat →
  (∀ p x, word !! p = Some (Some x) → w !! p = Some x) →
  let word' :=
    foldl (λ word '(letter, positions),
             foldl (λ word position, array_set word position letter)
               word positions)
      word entries in
  (length word' ≤ length w)%nat
  ∧ (∀ p x, word' !! p = Some (Some x) → w !! p = Some x)
  ∧ (∀ p x, word !! p = Some (Some x) → ∃ y, word' !! p = Some (Some y))
  ∧ (∀ letter positions p,
       (letter, positions) ∈ entries → p ∈ positions →
       ∃ y, word' !! p = Some (Some y)).
Proof.
  revert word. induction entries as [|[letter positions] entries IH];
    intros word Hw Hlen Hword; cbn [foldl].
  - split; [done |]. split; [done |]. split; [eauto |].
    by intros ??? ?%elem_of_nil.
  - destruct (writes_agree w letter positions word)
      as (Hlen1 & Hword1 & Hkeep1 & Hset1); [| done | done |].
    { intros p Hp. apply (Hw letter positions); [apply list_elem_of_here | done]. }
    cbv zeta in Hlen1, Hword1, Hkeep1, Hset1.
    destruct (IH (foldl (λ word p, array_set word p letter) word positions))
      as (Hlen2 & Hword2 & Hkeep2 & Hset2); [| done | done |].
    { intros l ps p Hin. apply Hw. by apply list_elem_of_further. }
    cbv zeta in Hlen2, Hword2, Hkeep2, Hset2.
    split; [done |]. split; [done |]. split.
    + intros p x [y Hy]%Hkeep1. by apply Hkeep2 in Hy.
    + intros l ps p [[= -> ->] | Hin]%elem_of_cons Hp.
      * destruct (Hset1 p Hp) as [y Hy]. by apply Hkeep2 in Hy.
      * by apply (Hset2 l ps).
Qed.

(** X17: [makeWord] rebuilds a word from any description of it: when every
    position listed under a letter holds that letter in [w], and every
    position of [w] is listed under some letter, the result is the letters
    of [w] put together, in whatever order the letters and the positions
    are given. *)
Theorem makeWord_rebuilds (w : list string)
    (lettersObject : list (string * list nat)) :
  (∀ letter positions p,
     (letter, positions) ∈ lettersObject → p ∈ positions →
     w !! p = Some letter) →
  (∀ p, (p < length w)%nat →
        ∃ letter positions, (letter, positions) ∈ lettersObject ∧ p ∈ positions) →
  makeWord lettersObject = concat_strings w.
Proof.
  intros Hagree Hcover. unfold makeWord.
  destruct (entries_agree w lettersObject [] Hagree)
    as (Hlen & Hword & _ & Hset); [simpl; lia | done |].
  cbv zeta in Hlen, Hword, Hset |- *.
  set (word := foldl _ [] lettersObject) in *.
  assert (word = Some <$> w) as ->.
  { apply list_eq. intros p. rewrite list_lookup_fmap.
    destruct (decide (p < length w)%nat) as [Hp | Hp].
    - destruct (Hcover p Hp) as (letter & positions & Hin & Hpos).
      destruct (Hset letter positions p Hin Hpos) as [y Hy].
      rewrite Hy. by rewrite (Hword p y Hy).
    - rewrite (lookup_ge_None_2 w) by lia.
      apply lookup_ge_None_2. lia. }
  unfold join_empty. rewrite <- list_fmap_compose.
  f_equal. rewrite <- (list_fmap_id w) at 2. by apply list_fmap_ext.
Qed.

Lemma makeWord_rebuilds_witness :
  makeWord [("a", [0; 1]); ("b", [2; 3]); ("c", [4; 5])]%nat = "aabbcc".
Proof.
  apply (makeWord_rebuilds ["a"; "a"; "b"; "b"; "c"; "c"]
           [("a", [0; 1]); ("b", [2; 3]); ("c", [4; 5])]%nat).
  - intros letter positions p Hin Hp.
    repeat (apply elem_of_cons in Hin as [[= -> ->] | Hin];
            [repeat (apply elem_of_cons in Hp as [-> | Hp]; [reflexivity |]);
             by apply elem_of_nil in Hp |]).
    by apply elem_of_nil in Hin.
  - intros p Hp. simpl in Hp.
    destruct p as [|[|[|[|[|[|p]]]]]]; [.. | lia].
    + exists "a", [0; 1]%nat. split; by_evaluation.
    + exists "a", [0; 1]%nat. split; by_evaluation.
    + exists "b", [2; 3]%nat. split; by_evaluation.
    + exists "b", [2; 3]%nat. split; by_evaluation.
    + exists "c", [4; 5]%nat. split; by_evaluation.
    + exists "c", [4; 5]%nat. split; by_evaluation.
Defined.

(** * The examples of the documentation comments *)

Example sellTickets_example_1 : sellTickets [25; 25; 50] = true.
Proof. reflexivity. Qed.

Example sellTickets_example_2 : sellTickets [25; 100] = false.
Proof. reflexivity. Qed.

Example makeWord_example :
  makeWord [("H", [0]); ("e", [1]); ("l", [2; 3; 8]); ("o", [4; 6]);
            ("W", [5]); ("r", [7]); ("d", [9])]%nat
  = "HelloWorld".
Proof. reflexivity. Qed.

Example group_example :
  group [("Belarus", "Brest"); ("Russia", "Omsk"); ("Russia", "Samara");
         ("Belarus", "Grodno"); ("Belarus", "Minsk"); ("Poland", "Lodz")]
    fst snd
  = Normal [("Belarus", ["Brest"; "Grodno"; "Minsk"]);
            ("Russia", ["Omsk"; "Samara"]);
            ("Poland", ["Lodz"])].
Proof. reflexivity. Qed.

Example removeProperties_example :
  removeProperties Object_prototype
    ({[ "a" := Number 1; "b" := Number 2; "c" := Number 3 ]}
       : gmap string primitive)
    (inl ["b"; "c"])
  = {[ "a" := Number 1 ]}.
Proof. by_evaluation. Qed.

Example compareObjects_example :
  compareObjects Undefined Object_prototype
    ({[ "a" := Number 1; "b" := Number 2 ]} : gmap string primitive)
    {[ "a" := Number 1; "b" := Number 3 ]}
  = false.
Proof. reflexivity. Qed.
